(** * upload_ami: the idempotent AMI publishing pipeline

    A shallow embedding of [upload_ami/upload_ami.py] and the properties of
    its stages.  Python [str] values are represented by their UTF-8
    encoding (a Rocq [string] is a sequence of bytes), so [str.encode()] is
    the identity on the representation and [+] on [str] is [+:+].  The
    calls to [logging] are left out: they reach no provider and change no
    value. *)

From Stdlib Require Import ZArith String Ascii List Lia.
From stdpp Require Import base option list gmap strings fin_maps.
Import ListNotations.

(** ** hashlib.sha256

    The client token of a snapshot import is a SHA-256 digest.  The digest
    is the one of FIPS 180-4, on 32-bit words held in [Z] with the
    wrap-around written out. *)
Module SHA256.
Local Open Scope Z_scope.

Definition wrap (x : Z) : Z := x mod 2 ^ 32.
Definition plus32 (x y : Z) : Z := wrap (x + y).
Definition rotr (n x : Z) : Z :=
  Z.lor (Z.shiftr x n) (wrap (Z.shiftl x (32 - n))).
Definition neg32 (x : Z) : Z := Z.lxor x 0xffffffff.

Definition Ch (x y z : Z) : Z := Z.lxor (Z.land x y) (Z.land (neg32 x) z).
Definition Maj (x y z : Z) : Z :=
  Z.lxor (Z.lxor (Z.land x y) (Z.land x z)) (Z.land y z).
Definition Sigma0 (x : Z) : Z := Z.lxor (Z.lxor (rotr 2 x) (rotr 13 x)) (rotr 22 x).
Definition Sigma1 (x : Z) : Z := Z.lxor (Z.lxor (rotr 6 x) (rotr 11 x)) (rotr 25 x).
Definition sigma0 (x : Z) : Z := Z.lxor (Z.lxor (rotr 7 x) (rotr 18 x)) (Z.shiftr x 3).
Definition sigma1 (x : Z) : Z := Z.lxor (Z.lxor (rotr 17 x) (rotr 19 x)) (Z.shiftr x 10).

(** The primes among [2 .. bound + 1], by trial division. *)
Definition is_prime (n : Z) : bool :=
  forallb (fun d => negb (n mod d =? 0))
    (map Z.of_nat (seq 2 (Z.to_nat n - 2))).

Definition primes (bound : nat) : list Z :=
  List.filter is_prime (map Z.of_nat (seq 2 bound)).

(** Integer cube root, found bit by bit from the top. *)
Definition icbrt (n : Z) : Z :=
  fold_left (fun r k => let c := r + 2 ^ k in
                        if c * c * c <=? n then c else r)
    (map Z.of_nat (rev (seq 0 36))) 0.

(** The round constants: the first 32 bits of the fractional parts of
    the cube roots of the first 64 primes. *)
Definition K : list Z :=
  Eval vm_compute in
    map (fun p => icbrt (p * 2 ^ 96) mod 2 ^ 32) (primes 310).

(** The initial hash value: the same of the square roots of the first 8
    primes. *)
Definition H0 : list Z :=
  Eval vm_compute in
    map (fun p => Z.sqrt (p * 2 ^ 64) mod 2 ^ 32) (primes 18).

Definition byte_of (c : ascii) : Z := Z.of_N (N_of_ascii c).

Fixpoint bytes_of (s : string) : list Z :=
  match s with
  | EmptyString => []
  | String c s' => byte_of c :: bytes_of s'
  end.

(** Big-endian bytes of [x], [n] of them. *)
Fixpoint be_bytes (n : nat) (x : Z) : list Z :=
  match n with
  | O => []
  | S n' => Z.shiftr x (8 * Z.of_nat n') mod 256 :: be_bytes n' x
  end.

Definition be_word (bs : list Z) : Z :=
  fold_left (fun acc b => acc * 256 + b) bs 0.

(** The message, a [1] bit, zeros up to 56 modulo 64 bytes, and the
    length in bits on 64 bits. *)
Definition pad (msg : list Z) : list Z :=
  let len := Z.of_nat (length msg) in
  let zeros := Z.to_nat ((55 - len) mod 64) in
  msg ++ [0x80] ++ repeat 0 zeros ++ be_bytes 8 (8 * len).

Fixpoint words (n : nat) (bs : list Z) : list Z :=
  match n with
  | O => []
  | S n' => be_word (firstn 4 bs) :: words n' (skipn 4 bs)
  end.

(** The message schedule, most recent word first. *)
Fixpoint extend (n : nat) (rev_w : list Z) : list Z :=
  match n with
  | O => rev_w
  | S n' =>
      let at_ i := nth i rev_w 0 in
      let wt := plus32 (plus32 (sigma1 (at_ 1%nat)) (at_ 6%nat))
                       (plus32 (sigma0 (at_ 14%nat)) (at_ 15%nat)) in
      extend n' (wt :: rev_w)
  end.

Definition schedule (block : list Z) : list Z :=
  rev (extend 48 (rev (words 16 block))).

Definition round (st : list Z) (kw : Z * Z) : list Z :=
  match st with
  | [a; b; c; d; e; f; g; h] =>
      let t1 := plus32 (plus32 (plus32 h (Sigma1 e)) (Ch e f g))
                       (plus32 (fst kw) (snd kw)) in
      let t2 := plus32 (Sigma0 a) (Maj a b c) in
      [plus32 t1 t2; a; b; c; plus32 d t1; e; f; g]
  | _ => st
  end.

Definition compress (h : list Z) (block : list Z) : list Z :=
  let out := fold_left round (combine K (schedule block)) h in
  map (fun p => plus32 (fst p) (snd p)) (combine h out).

Fixpoint blocks (n : nat) (bs : list Z) (h : list Z) : list Z :=
  match n with
  | O => h
  | S n' => blocks n' (skipn 64 bs) (compress h (firstn 64 bs))
  end.

Definition digest (msg : list Z) : list Z :=
  let p := pad msg in
  concat (map (be_bytes 4) (blocks (length p / 64) p H0)).

Definition hex_digit (d : Z) : ascii :=
  nth (Z.to_nat d) (list_ascii_of_string "0123456789abcdef") "0"%char.

Fixpoint hex (bs : list Z) : string :=
  match bs with
  | [] => EmptyString
  | b :: bs' => String (hex_digit (b / 16)) (String (hex_digit (b mod 16)) (hex bs'))
  end.

(** A hash object is the bytes fed to it so far: [hashlib.sha256(data)],
    [h.update(data)] and [h.hexdigest()]. *)
Definition t := list Z.
Definition new (data : string) : t := bytes_of data.
Definition update (h : t) (data : string) : t := h ++ bytes_of data.
Definition hexdigest (h : t) : string := hex (digest h).
End SHA256.


(** ** Exceptions

    The exceptions the pipeline raises itself ([KeyError] on a missing
    descriptor field, [AssertionError], [Exception]) and those the provider
    calls raise.  [except botocore.exceptions.ClientError] catches a
    [ClientError] whatever its error code and nothing else: waiter,
    connection and transfer errors are not subclasses of it. *)
Inductive exn : Type :=
| ClientError (code : string)
| WaiterError (name : string)
| BotoCoreError (msg : string)
| OSError (msg : string)
| KeyError (key : string)
| AssertionError
| Exception (msg : string).

Definition is_ClientError (e : exn) : bool :=
  match e with
  | ClientError _ => true
  | _ => false
  end.

(** ** Provider responses

    Keys of a top-level response are always present and read with
    [resp["Key"]]; keys of the nested structures are optional, which is
    why the source tests ["Key" in d] before reading them. *)
Record ImageTypeDef := { ImageId : option string }.
Record RegionTypeDef := { RegionName : option string }.
Record SnapshotTaskDetailTypeDef := { SnapshotId : option string }.
Record ImportSnapshotTaskTypeDef :=
  { SnapshotTaskDetail : option SnapshotTaskDetailTypeDef }.

Record ImportSnapshotResult := { ImportTaskId : string }.
Record DescribeImportSnapshotTasksResult :=
  { ImportSnapshotTasks : list ImportSnapshotTaskTypeDef }.
Record DescribeImagesResult := { Images : list ImageTypeDef }.
Record RegisterImageResult := { registered_ImageId : string }.
Record CopyImageResult := { copied_ImageId : string }.
Record DescribeRegionsResult := { Regions : list RegionTypeDef }.

(** ** Provider requests *)
Record UserBucket := { S3Bucket : string; S3Key : string }.
Record SnapshotDiskContainer :=
  { dc_Description : string; dc_Format : string; dc_UserBucket : UserBucket }.
Record EbsBlockDevice := { ebs_SnapshotId : string; ebs_VolumeType : string }.
Record BlockDeviceMapping := { DeviceName : string; Ebs : EbsBlockDevice }.
Record RegisterImageRequest :=
  { Name : string;
    Architecture : string;
    BootMode : string;
    BlockDeviceMappings : list BlockDeviceMapping;
    RootDeviceName : string;
    VirtualizationType : string;
    EnaSupport : bool;
    ImdsSupport : string;
    SriovNetSupport : string }.

(** One constructor per client method the pipeline calls, indexed by the
    type of its response.  The EC2 methods carry the region of the client
    they are called on. *)
Inductive call : Type -> Type :=
| s3_head_object (Bucket Key : string) : call unit
| s3_upload_file (Filename Bucket Key : string) : call unit
| s3_wait_object_exists (Bucket Key : string) : call unit
| ec2_import_snapshot (region : string) (DiskContainer : SnapshotDiskContainer)
    (Description ClientToken : string) : call ImportSnapshotResult
| ec2_wait_snapshot_imported (region : string) (ImportTaskIds : list string)
  : call unit
| ec2_describe_import_snapshot_tasks (region : string)
    (ImportTaskIds : list string) : call DescribeImportSnapshotTasksResult
| ec2_describe_images (region : string) (Owners : list string)
    (Filters : list (string * list string)) : call DescribeImagesResult
| ec2_register_image (region : string) (req : RegisterImageRequest)
  : call RegisterImageResult
| ec2_wait_image_available (region : string) (ImageIds : list string)
  : call unit
| ec2_modify_image_attribute (region : string) (Image Attribute : string)
    (LaunchPermission_Add_Group : list string) : call unit
| ec2_describe_regions (region : string) : call DescribeRegionsResult
| ec2_copy_image (region : string)
    (SourceImageId SourceRegion CopyName ClientToken : string)
  : call CopyImageResult.

(** A call together with what the provider answered. *)
Inductive event : Type :=
| Ev {X : Type} (c : call X) (r : exn + X).

(** A provider: its state, its answer to each call, and the region the
    ambient configuration gives to [boto3.client("ec2")]. *)
Record Provider : Type :=
  { world : Type;
    respond : forall X : Type, call X -> world -> (exn + X) * world;
    session_region : string }.

Record S3Client := { s3_service : string }.
Record EC2Client := { meta_region_name : string }.

(** ** The monad of the pipeline

    A computation runs against the provider's state; it ends with a value
    or an exception, the provider's new state, and the calls made. *)
Record result (W A : Type) : Type :=
  { outcome : exn + A; final : W; trace : list event }.
Arguments outcome {W A} _.
Arguments final {W A} _.
Arguments trace {W A} _.

Section Pipeline.
Variable P : Provider.

Definition M (A : Type) : Type := world P -> result (world P) A.

Definition ret {A : Type} (a : A) : M A :=
  fun w => {| outcome := inr a; final := w; trace := [] |}.

Definition raise {A : Type} (e : exn) : M A :=
  fun w => {| outcome := inl e; final := w; trace := [] |}.

Definition bind {A B : Type} (m : M A) (f : A -> M B) : M B :=
  fun w =>
    let r := m w in
    match outcome r with
    | inl e => {| outcome := inl e; final := final r; trace := trace r |}
    | inr a =>
        let r' := f a (final r) in
        {| outcome := outcome r'; final := final r';
           trace := trace r ++ trace r' |}
    end.

Definition invoke {X : Type} (c : call X) : M X :=
  fun w =>
    let '(r, w') := respond P X c w in
    {| outcome := r; final := w'; trace := [Ev c r] |}.

(** [try: body except <class>: handler], for a body whose value is
    dropped. *)
Definition try_except {A : Type} (body : M A) (catches : exn -> bool)
    (handler : M unit) : M unit :=
  fun w =>
    let r := body w in
    match outcome r with
    | inr _ => {| outcome := inr tt; final := final r; trace := trace r |}
    | inl e =>
        if catches e then
          let r' := handler (final r) in
          {| outcome := outcome r'; final := final r';
             trace := trace r ++ trace r' |}
        else {| outcome := inl e; final := final r; trace := trace r |}
    end.

(** The outcome of a task, kept as a value: what a future holds. *)
Definition attempt {A : Type} (m : M A) : M (exn + A) :=
  fun w =>
    let r := m w in
    {| outcome := inr (outcome r); final := final r; trace := trace r |}.

Definition assert (b : bool) : M unit :=
  if b then ret tt else raise AssertionError.

End Pipeline.

Arguments ret {P A} _ _.
Arguments raise {P A} _ _.
Arguments bind {P A B} _ _ _.
Arguments invoke {P X} _ _.
Arguments try_except {P A} _ _ _ _.
Arguments attempt {P A} _ _.
Arguments assert {P} _ _.

Notation "'let*' x ':=' m 'in' k" := (bind m (fun x => k))
  (at level 10, x pattern, m at level 100, k at level 200).
Notation "m ';;' k" := (bind m (fun _ => k))
  (at level 100, k at level 200, right associativity).

(** ** Python values *)

(** [d[key]] on a dict read from JSON. *)
Definition getitem {P : Provider} (d : gmap string string) (key : string)
  : M P string :=
  match d !! key with
  | Some v => ret v
  | None => raise (KeyError key)
  end.

(** Truth value of a [str]: the empty string is false. *)
Definition truthy (s : string) : bool :=
  match s with
  | EmptyString => false
  | String _ _ => true
  end.

(** [d.get(key) or default]. *)
Definition get_or (d : gmap string string) (key default : string) : string :=
  match d !! key with
  | Some v => if truthy v then v else default
  | None => default
  end.

(** [dict(results)] on the results of [executor.map]: the results are
    taken in the order of the tasks, a later pair replaces an earlier one
    with the same key, and the first task that raised re-raises here. *)
Fixpoint dict_of_results (results : list (exn + string * string))
    (acc : gmap string string) : exn + gmap string string :=
  match results with
  | [] => inr acc
  | inl e :: _ => inl e
  | inr (k, v) :: rest => dict_of_results rest (<[k := v]> acc)
  end.

(** [d.update(other)]. *)
Definition dict_update (d other : gmap string string) : gmap string string :=
  other ∪ d.

(** ** The stages *)
Section Stages.
Variable P : Provider.

Definition boto3_client_s3 : M P S3Client := ret {| s3_service := "s3" |}.

(** [boto3.client("ec2")] and [boto3.client("ec2", region_name=r)]. *)
Definition boto3_client_ec2 (region_name : option string) : M P EC2Client :=
  ret {| meta_region_name := default (session_region P) region_name |}.

Definition upload_to_s3_if_not_exists (s3 : S3Client)
    (bucket key file : string) : M P unit :=
  try_except
    (invoke (s3_head_object bucket key))
    is_ClientError
    (invoke (s3_upload_file file bucket key);;
     invoke (s3_wait_object_exists bucket key)).

Definition client_token (s3_key : string) : string :=
  let client_token_hash := SHA256.new s3_key in
  let client_token_hash := SHA256.update client_token_hash "x" in
  SHA256.hexdigest client_token_hash.

Definition import_snapshot (ec2 : EC2Client)
    (s3_bucket s3_key image_format : string) : M P string :=
  let region := meta_region_name ec2 in
  let* snapshot_import_task :=
    invoke (ec2_import_snapshot region
              {| dc_Description := s3_key;
                 dc_Format := image_format;
                 dc_UserBucket := {| S3Bucket := s3_bucket; S3Key := s3_key |} |}
              s3_key
              (client_token s3_key)) in
  invoke (ec2_wait_snapshot_imported region
            [ImportTaskId snapshot_import_task]);;
  let* snapshot_import_tasks :=
    invoke (ec2_describe_import_snapshot_tasks region
              [ImportTaskId snapshot_import_task]) in
  match ImportSnapshotTasks snapshot_import_tasks with
  | [] => raise AssertionError
  | snapshot_import_task_2 :: _ =>
      match SnapshotTaskDetail snapshot_import_task_2 with
      | None => raise AssertionError
      | Some detail =>
          match SnapshotId detail with
          | None => raise AssertionError
          | Some snapshot_id => ret snapshot_id
          end
      end
  end.

Definition architecture_of (system : string) : option string :=
  if String.eqb system "x86_64-linux" then Some "x86_64"
  else if String.eqb system "aarch64-linux" then Some "arm64"
  else None.

Definition launch_permission_all (ec2 : EC2Client) (image_id : string)
  : M P unit :=
  invoke (ec2_modify_image_attribute (meta_region_name ec2) image_id
            "launchPermission" ["all"]).

Definition register_image_if_not_exists (ec2 : EC2Client)
    (image_name : string) (image_info : gmap string string)
    (snapshot_id : string) (public : bool) : M P string :=
  let region := meta_region_name ec2 in
  let* describe_images :=
    invoke (ec2_describe_images region ["self"] [("name", [image_name])]) in
  let* image_id :=
    match Images describe_images with
    | image :: others =>
        assert (Nat.eqb (length (image :: others)) 1);;
        match ImageId image with
        | None => raise AssertionError
        | Some image_id => ret image_id
        end
    | [] =>
        match image_info !! "system" with
        | None => raise AssertionError
        | Some system =>
            match architecture_of system with
            | None => raise (Exception ("Unknown system: " +:+ system))
            | Some architecture =>
                let* boot_mode := getitem image_info "boot_mode" in
                let* register_image :=
                  invoke (ec2_register_image region
                            {| Name := image_name;
                               Architecture := architecture;
                               BootMode := boot_mode;
                               BlockDeviceMappings :=
                                 [ {| DeviceName := "/dev/xvda";
                                      Ebs := {| ebs_SnapshotId := snapshot_id;
                                                ebs_VolumeType := "gp3" |} |} ];
                               RootDeviceName := "/dev/xvda";
                               VirtualizationType := "hvm";
                               EnaSupport := true;
                               ImdsSupport := "v2.0";
                               SriovNetSupport := "simple" |}) in
                ret (registered_ImageId register_image)
            end
        end
    end in
  invoke (ec2_wait_image_available region [image_id]);;
  (if public then launch_permission_all ec2 image_id else ret tt);;
  ret image_id.

(** The inner [copy_image] of [copy_image_to_regions]; [public] is the
    variable of the enclosing function it closes over. *)
Definition copy_image (public : bool)
    (image_id image_name source_region target_region_name : string)
  : M P (string * string) :=
  let* ec2r := boto3_client_ec2 (Some target_region_name) in
  let* copy :=
    invoke (ec2_copy_image (meta_region_name ec2r)
              image_id source_region image_name image_id) in
  invoke (ec2_wait_image_available (meta_region_name ec2r)
            [copied_ImageId copy]);;
  (if public then launch_permission_all ec2r (copied_ImageId copy)
   else ret tt);;
  ret (target_region_name, copied_ImageId copy).

Definition _copy_image (public : bool)
    (image_id image_name source_region : string)
    (target_region : RegionTypeDef) : M P (string * string) :=
  match RegionName target_region with
  | None => raise AssertionError
  | Some target_region_name =>
      copy_image public image_id image_name source_region target_region_name
  end.

(** [executor.map(fn, items)] on a [ThreadPoolExecutor]: a task is
    submitted for every item and runs to its own end, whatever becomes of
    the others (the pool has 32 workers; this is the run in which every
    task gets one); the futures are kept in the order of the items.  Each
    task calls the endpoint of its own region; in the trace the calls of
    the tasks follow one another in the order of the items. *)
Fixpoint executor_map {A B : Type} (fn : A -> M P B) (items : list A)
  : M P (list (exn + B)) :=
  match items with
  | [] => ret []
  | x :: rest =>
      let* r := attempt (fn x) in
      let* rs := executor_map fn rest in
      ret (r :: rs)
  end.

Definition copy_image_to_regions (image_id image_name source_region : string)
    (target_regions : list RegionTypeDef) (public : bool)
  : M P (gmap string string) :=
  let* futures :=
    executor_map (_copy_image public image_id image_name source_region)
      target_regions in
  match dict_of_results futures ∅ with
  | inl e => raise e
  | inr image_ids => ret (<[source_region := image_id]> image_ids)
  end.

Definition logical_image_name (prefix label system run_id : string) : string :=
  prefix +:+ label +:+ "-" +:+ system
  +:+ (if truthy run_id then "." +:+ run_id else "").

Definition upload_ami (image_info : gmap string string) (s3_bucket : string)
    (copy_to_regions : bool) (prefix run_id : string) (public : bool)
  : M P (gmap string string) :=
  let* ec2 := boto3_client_ec2 None in
  let* s3 := boto3_client_s3 in
  let* image_file := getitem image_info "file" in
  let* label := getitem image_info "label" in
  let* system := getitem image_info "system" in
  let image_name := logical_image_name prefix label system run_id in
  let s3_key := image_name in
  upload_to_s3_if_not_exists s3 s3_bucket s3_key image_file;;
  let image_format := get_or image_info "format" "VHD" in
  let* snapshot_id := import_snapshot ec2 s3_bucket s3_key image_format in
  let* image_id :=
    register_image_if_not_exists ec2 image_name image_info snapshot_id public in
  let* described := invoke (ec2_describe_regions (meta_region_name ec2)) in
  let regions :=
    filter (fun x => RegionName x ≠ Some (meta_region_name ec2))
      (Regions described) in
  let image_ids : gmap string string := <[meta_region_name ec2 := image_id]> ∅ in
  if copy_to_regions then
    let* copies :=
      copy_image_to_regions image_id image_name (meta_region_name ec2)
        regions public in
    ret (dict_update image_ids copies)
  else ret image_ids.

End Stages.

Arguments upload_to_s3_if_not_exists {P} _ _ _ _ _.
Arguments import_snapshot {P} _ _ _ _ _.
Arguments register_image_if_not_exists {P} _ _ _ _ _ _.
Arguments copy_image {P} _ _ _ _ _ _.
Arguments _copy_image {P} _ _ _ _ _ _.
Arguments executor_map {P A B} _ _ _.
Arguments copy_image_to_regions {P} _ _ _ _ _ _.
Arguments upload_ami {P} _ _ _ _ _ _ _.
Arguments boto3_client_ec2 {P} _ _.
Arguments launch_permission_all {P} _ _ _.

(** ** What a run did: observers on traces *)

(** The transfers attempted: [(file, bucket, key)] of each [upload_file]. *)
Definition transfer_of (e : event) : option (string * string * string) :=
  match e with
  | Ev (s3_upload_file f b k) _ => Some (f, b, k)
  | Ev _ _ => None
  end.

(** The object keys the storage calls name. *)
Definition object_key_of (e : event) : option (string * string) :=
  match e with
  | Ev (s3_head_object b k) _ => Some (b, k)
  | Ev (s3_upload_file _ b k) _ => Some (b, k)
  | Ev (s3_wait_object_exists b k) _ => Some (b, k)
  | Ev _ _ => None
  end.

(** The snapshot imports submitted: disk container and client token. *)
Definition import_of (e : event) : option (SnapshotDiskContainer * string) :=
  match e with
  | Ev (ec2_import_snapshot _ dc _ token) _ => Some (dc, token)
  | Ev _ _ => None
  end.

(** The answers to the lookups of an image by name. *)
Definition lookup_of (e : event) : option (exn + DescribeImagesResult) :=
  match e with
  | Ev c r =>
      match c in call X return exn + X -> option (exn + DescribeImagesResult) with
      | ec2_describe_images _ _ _ => fun r => Some r
      | _ => fun _ => None
      end r
  end.

(** The image registrations requested, with the provider's answer. *)
Definition registration_of (e : event)
  : option (RegisterImageRequest * (exn + RegisterImageResult)) :=
  match e with
  | Ev c r =>
      match c in call X
            return exn + X -> option (RegisterImageRequest * (exn + RegisterImageResult))
      with
      | ec2_register_image _ req => fun r => Some (req, r)
      | _ => fun _ => None
      end r
  end.

(** The launch-permission grants issued: region, image, attribute, groups. *)
Definition grant_of (e : event)
  : option (string * string * string * list string) :=
  match e with
  | Ev (ec2_modify_image_attribute region image attr groups) _ =>
      Some (region, image, attr, groups)
  | Ev _ _ => None
  end.

(** The queries of the import tasks: the task ids asked for and the
    provider's answer. *)
Definition task_query_of (e : event)
  : option (list string * (exn + DescribeImportSnapshotTasksResult)) :=
  match e with
  | Ev c r =>
      match c in call X
            return exn + X
                   -> option (list string * (exn + DescribeImportSnapshotTasksResult))
      with
      | ec2_describe_import_snapshot_tasks _ ids => fun r => Some (ids, r)
      | _ => fun _ => None
      end r
  end.

(** The copies that returned an image: target region and the id returned. *)
Definition copy_of (e : event) : option (string * string) :=
  match e with
  | Ev c r =>
      match c in call X return exn + X -> option (string * string) with
      | ec2_copy_image region _ _ _ _ =>
          fun r => match r with
                   | inr resp => Some (region, copied_ImageId resp)
                   | inl _ => None
                   end
      | _ => fun _ => None
      end r
  end.

(** The copy requests sent: target region and client token. *)
Definition copy_request_of (e : event) : option (string * string) :=
  match e with
  | Ev (ec2_copy_image region _ _ _ token) _ => Some (region, token)
  | Ev _ _ => None
  end.

(** The waits for [image_available] that returned: region and image ids. *)
Definition available_of (e : event) : option (string * list string) :=
  match e with
  | Ev (ec2_wait_image_available region ids) (inr _) => Some (region, ids)
  | Ev _ _ => None
  end.

(** The replication calls that raised: region and exception. *)
Definition failure_of (e : event) : option (string * exn) :=
  match e with
  | Ev (ec2_copy_image region _ _ _ _) (inl e) => Some (region, e)
  | Ev (ec2_wait_image_available region _) (inl e) => Some (region, e)
  | Ev (ec2_modify_image_attribute region _ _ _) (inl e) => Some (region, e)
  | Ev _ _ => None
  end.

Definition transfers : list event -> list (string * string * string) :=
  omap transfer_of.
Definition object_keys : list event -> list (string * string) :=
  omap object_key_of.
Definition imports : list event -> list (SnapshotDiskContainer * string) :=
  omap import_of.
Definition lookups : list event -> list (exn + DescribeImagesResult) :=
  omap lookup_of.
Definition registrations
  : list event -> list (RegisterImageRequest * (exn + RegisterImageResult)) :=
  omap registration_of.
Definition grants : list event -> list (string * string * string * list string) :=
  omap grant_of.
Definition task_queries
  : list event -> list (list string * (exn + DescribeImportSnapshotTasksResult)) :=
  omap task_query_of.
Definition failures : list event -> list (string * exn) := omap failure_of.
Definition copies : list event -> list (string * string) := omap copy_of.
Definition copy_requests : list event -> list (string * string) :=
  omap copy_request_of.
Definition available : list event -> list (string * list string) :=
  omap available_of.

(** The first exception among the outcomes of the tasks. *)
Fixpoint first_error {A : Type} (futures : list (exn + A)) : option exn :=
  match futures with
  | [] => None
  | inl e :: _ => Some e
  | inr _ :: rest => first_error rest
  end.

(** The pairs the tasks returned, in the order of the tasks. *)
Fixpoint returned {A : Type} (futures : list (exn + A)) : list A :=
  match futures with
  | [] => []
  | inl _ :: rest => returned rest
  | inr a :: rest => a :: returned rest
  end.

(** [dict(pairs)]: a later pair replaces an earlier one. *)
Definition dict (pairs : list (string * string)) : gmap string string :=
  fold_left (fun acc kv => <[kv.1 := kv.2]> acc) pairs ∅.

(** ** A reference provider

    An in-memory account to run the pipeline against: local files, an
    object store that answers the existence probe with a 404
    [ClientError] exactly when the object is absent, import tasks keyed by
    client token, and images unique by name in each region.  It stands
    for the provider in the runs of the pipeline below; the properties
    stated for every [Provider] do not depend on it. *)
Record cloud : Type :=
  { files : gmap string string;
    objects : gmap (string * string) string;
    snapshots : gmap string string;
    images : list (string * string * string);
    public_images : list (string * string);
    regions : list string }.

Definition image_named (c : cloud) (region name : string) : option string :=
  (fun p => p.2) <$>
    List.find (fun p => String.eqb p.1.1 region && String.eqb p.1.2 name)
      (images c).

Definition image_in (c : cloud) (region id : string) : bool :=
  existsb (fun p => String.eqb p.1.1 region && String.eqb p.2 id) (images c).

Definition names_wanted (filters : list (string * list string)) : list string :=
  concat (map snd (List.filter (fun f => String.eqb f.1 "name") filters)).

Definition add_image (c : cloud) (region name id : string) : cloud :=
  {| files := files c; objects := objects c; snapshots := snapshots c;
     images := images c ++ [(region, name, id)];
     public_images := public_images c; regions := regions c |}.

Definition cloud_respond (X : Type) (q : call X) (c : cloud)
  : (exn + X) * cloud :=
  match q in call X return (exn + X) * cloud with
  | s3_head_object b k =>
      match objects c !! (b, k) with
      | Some _ => (inr tt, c)
      | None => (inl (ClientError "404"), c)
      end
  | s3_upload_file f b k =>
      match files c !! f with
      | Some data =>
          (inr tt,
           {| files := files c; objects := <[(b, k) := data]> (objects c);
              snapshots := snapshots c; images := images c;
              public_images := public_images c; regions := regions c |})
      | None => (inl (OSError f), c)
      end
  | s3_wait_object_exists b k =>
      match objects c !! (b, k) with
      | Some _ => (inr tt, c)
      | None => (inl (WaiterError "object_exists"), c)
      end
  | ec2_import_snapshot _ dc _ token =>
      match objects c !! (S3Bucket (dc_UserBucket dc), S3Key (dc_UserBucket dc)) with
      | Some _ =>
          (inr {| ImportTaskId := "import-snap-" +:+ token |},
           {| files := files c; objects := objects c;
              snapshots := <["import-snap-" +:+ token := "snap-" +:+ token]>
                             (snapshots c);
              images := images c; public_images := public_images c;
              regions := regions c |})
      | None => (inl (ClientError "InvalidParameter"), c)
      end
  | ec2_wait_snapshot_imported _ ids =>
      if forallb (fun id => bool_decide (is_Some (snapshots c !! id))) ids
      then (inr tt, c)
      else (inl (WaiterError "snapshot_imported"), c)
  | ec2_describe_import_snapshot_tasks _ ids =>
      (inr {| ImportSnapshotTasks :=
                omap (fun id =>
                        (fun snap =>
                           {| SnapshotTaskDetail :=
                                Some {| SnapshotId := Some snap |} |})
                        <$> snapshots c !! id) ids |}, c)
  | ec2_describe_images region _ filters =>
      (inr {| Images :=
                omap (fun name =>
                        (fun id => {| ImageId := Some id |})
                        <$> image_named c region name)
                  (names_wanted filters) |}, c)
  | ec2_register_image region req =>
      match image_named c region (Name req) with
      | Some _ => (inl (ClientError "InvalidAMIName.Duplicate"), c)
      | None =>
          let id := "ami-" +:+ region +:+ "-" +:+ Name req in
          (inr {| registered_ImageId := id |}, add_image c region (Name req) id)
      end
  | ec2_wait_image_available region ids =>
      if forallb (image_in c region) ids then (inr tt, c)
      else (inl (WaiterError "image_available"), c)
  | ec2_modify_image_attribute region id _ _ =>
      if image_in c region id then
        (inr tt,
         {| files := files c; objects := objects c; snapshots := snapshots c;
            images := images c;
            public_images := public_images c ++ [(region, id)];
            regions := regions c |})
      else (inl (ClientError "InvalidAMIID.NotFound"), c)
  | ec2_describe_regions _ =>
      (inr {| Regions := map (fun n => {| RegionName := Some n |}) (regions c) |},
       c)
  | ec2_copy_image region src src_region name _ =>
      if image_in c src_region src then
        match image_named c region name with
        | Some id => (inr {| copied_ImageId := id |}, c)
        | None =>
            let id := "ami-" +:+ region +:+ "-" +:+ name in
            (inr {| copied_ImageId := id |}, add_image c region name id)
        end
      else (inl (ClientError "InvalidAMIID.NotFound"), c)
  end.

Definition Cloud (region : string) : Provider :=
  {| world := cloud; respond := cloud_respond; session_region := region |}.

(** A provider that answers some calls from a script, leaving its state
    as it is, and the others as [Q] does. *)
Definition Scripted (script : forall X : Type, call X -> option (exn + X))
    (Q : Provider) : Provider :=
  {| world := world Q;
     respond := fun X q w =>
       match script X q with
       | Some r => (r, w)
       | None => respond Q X q w
       end;
     session_region := session_region Q |}.

(** The descriptor and the account of the end-to-end scenario. *)
Definition nixos_descriptor : gmap string string :=
  list_to_map
    [ ("file", "disk.img"); ("label", "nixos"); ("system", "x86_64-linux");
      ("boot_mode", "uefi"); ("format", "VHD") ].

Definition fresh_account : cloud :=
  {| files := {[ "disk.img" := "<image bytes>" ]};
     objects := ∅; snapshots := ∅; images := []; public_images := [];
     regions := ["eu-central-1"; "eu-west-1"; "us-east-1"; "us-west-2"] |}.

(** ** Accounts and scripts for the runs below *)

(** The existence probe raises [e]; every other call is answered by the
    account. *)
Definition probe_raises (e : exn) (X : Type) (q : call X) : option (exn + X) :=
  match q with
  | s3_head_object _ _ => Some (inl e)
  | _ => None
  end.

(** An account that already holds the object, with other content than the
    local file. *)
Definition stocked_account : cloud :=
  {| files := {[ "disk.img" := "<new bytes>" ]};
     objects := {[ ("b", "nixos-x86_64-linux.42") := "<old bytes>" ]};
     snapshots := ∅; images := []; public_images := [];
     regions := ["eu-central-1"] |}.

(** The query of the import tasks is answered with [tasks]. *)
Definition tasks_answered (tasks : list ImportSnapshotTaskTypeDef)
    (X : Type) (q : call X) : option (exn + X) :=
  match q in call X return option (exn + X) with
  | ec2_describe_import_snapshot_tasks _ _ =>
      Some (inr {| ImportSnapshotTasks := tasks |})
  | _ => None
  end.

Definition task_with_snapshot (id : string) : ImportSnapshotTaskTypeDef :=
  {| SnapshotTaskDetail := Some {| SnapshotId := Some id |} |}.

(** An account in which the image of the scenario is registered
    already. *)
Definition account_with_image : cloud :=
  {| files := {[ "disk.img" := "<image bytes>" ]};
     objects := {[ ("b", "nixos-x86_64-linux.42") := "<image bytes>" ]};
     snapshots := ∅;
     images := [("eu-central-1", "nixos-x86_64-linux.42", "ami-0123")];
     public_images := [];
     regions := ["eu-central-1"; "eu-west-1"] |}.

Definition riscv_descriptor : gmap string string :=
  list_to_map
    [ ("file", "disk.img"); ("label", "nixos"); ("system", "riscv64-linux");
      ("boot_mode", "uefi") ].

(** The copy to [region] is refused with [e]. *)
Definition copy_refused_in (region : string) (e : exn)
    (X : Type) (q : call X) : option (exn + X) :=
  match q in call X return option (exn + X) with
  | ec2_copy_image r _ _ _ _ =>
      if String.eqb r region then Some (inl e) else None
  | _ => None
  end.

Definition named_region (name : string) : RegionTypeDef :=
  {| RegionName := Some name |}.

Definition three_targets : list RegionTypeDef :=
  [named_region "eu-west-1"; named_region "us-east-1"; named_region "us-west-2"].

(** A descriptor whose format is the empty string. *)
Definition blank_format_descriptor : gmap string string :=
  list_to_map
    [ ("file", "disk.img"); ("label", "nixos"); ("system", "aarch64-linux");
      ("boot_mode", "uefi"); ("format", "") ].


(** ** Further observers *)

(** The exceptions the provider raised, call by call. *)
Definition raised_of (e : event) : option exn :=
  match e with
  | Ev _ (inl e) => Some e
  | Ev _ (inr _) => None
  end.

(** The waits for the visibility of an object. *)
Definition object_wait_of (e : event) : option (string * string) :=
  match e with
  | Ev (s3_wait_object_exists b k) _ => Some (b, k)
  | Ev _ _ => None
  end.

(** The waits for the end of an import: task ids and outcome. *)
Definition snapshot_wait_of (e : event) : option (list string * (exn + unit)) :=
  match e with
  | Ev c r =>
      match c in call X return exn + X -> option (list string * (exn + unit)) with
      | ec2_wait_snapshot_imported _ ids => fun r => Some (ids, r)
      | _ => fun _ => None
      end r
  end.

(** The answers to the submissions of an import. *)
Definition import_answer_of (e : event) : option (exn + ImportSnapshotResult) :=
  match e with
  | Ev c r =>
      match c in call X return exn + X -> option (exn + ImportSnapshotResult) with
      | ec2_import_snapshot _ _ _ _ => fun r => Some r
      | _ => fun _ => None
      end r
  end.

(** The waits for the availability of an image, whatever their outcome. *)
Definition image_wait_of (e : event) : option (string * list string) :=
  match e with
  | Ev (ec2_wait_image_available region ids) _ => Some (region, ids)
  | Ev _ _ => None
  end.

(** The answers to the listings of the regions. *)
Definition region_listing_of (e : event) : option (exn + DescribeRegionsResult) :=
  match e with
  | Ev c r =>
      match c in call X return exn + X -> option (exn + DescribeRegionsResult) with
      | ec2_describe_regions _ => fun r => Some r
      | _ => fun _ => None
      end r
  end.

(** The copy requests in full: target region, source image, source
    region, name and client token. *)
Definition copy_call_of (e : event)
  : option (string * string * string * string * string) :=
  match e with
  | Ev (ec2_copy_image region src src_region name token) _ =>
      Some (region, src, src_region, name, token)
  | Ev _ _ => None
  end.

Definition raised : list event -> list exn := omap raised_of.
Definition object_waits : list event -> list (string * string) :=
  omap object_wait_of.
Definition snapshot_waits : list event -> list (list string * (exn + unit)) :=
  omap snapshot_wait_of.
Definition import_answers : list event -> list (exn + ImportSnapshotResult) :=
  omap import_answer_of.
Definition image_waits : list event -> list (string * list string) :=
  omap image_wait_of.
Definition region_listings : list event -> list (exn + DescribeRegionsResult) :=
  omap region_listing_of.
Definition copy_calls
  : list event -> list (string * string * string * string * string) :=
  omap copy_call_of.

(** The exceptions the pipeline raises of its own: a missing field of the
    descriptor, a failed assertion, an unknown system. *)
Definition own_exception (e : exn) : Prop :=
  match e with
  | KeyError _ | AssertionError => True
  | Exception msg => exists system, msg = "Unknown system: " +:+ system
  | _ => False
  end.

(** ** The entry point

    [main] parses the command line, reads the descriptor with [json.load]
    and calls [upload_ami] with the parsed arguments; [--prefix] and
    [--run-id] have no default, so [args.prefix] and [args.run_id] are
    [None] when the option is not given.  The parsing, the reading of the
    descriptor and the printing of the result are left out: the model is
    the call of [upload_ami] on the parsed arguments and the loaded
    descriptor.  With [prefix = None] the expression [prefix + label]
    raises a [TypeError] once the three fields are read; [run_id = None]
    is false in [if run_id] like the empty string. *)
Record Namespace : Type :=
  { ns_image_info : string;
    ns_s3_bucket : string;
    ns_debug : bool;
    ns_cleanup : bool;
    ns_copy_to_regions : bool;
    ns_public : bool;
    ns_prefix : option string;
    ns_run_id : option string }.

Inductive main_run (W : Type) : Type :=
| TypeErrorRaised (w : W) (calls : list event)
| Ran (r : result W (gmap string string)).
Arguments TypeErrorRaised {W} _ _.
Arguments Ran {W} _.

Definition main_upload_ami {P : Provider} (args : Namespace)
    (image_info : gmap string string) (w : world P) : main_run (world P) :=
  match ns_prefix args with
  | Some prefix =>
      Ran (upload_ami image_info (ns_s3_bucket args) (ns_copy_to_regions args)
             prefix (default "" (ns_run_id args)) (ns_public args) w)
  | None =>
      let fields :=
        (let* ec2 := boto3_client_ec2 None in
         let* s3 := boto3_client_s3 P in
         let* image_file := getitem image_info "file" in
         let* label := getitem image_info "label" in
         let* system := getitem image_info "system" in
         ret tt) w in
      match outcome fields with
      | inl e =>
          Ran {| outcome := inl e; final := final fields; trace := trace fields |}
      | inr _ => TypeErrorRaised (final fields) (trace fields)
      end
  end.

(** ** Further accounts and scripts *)

(** The lookup of an image by name is answered with [found]. *)
Definition lookup_answered (found : list ImageTypeDef)
    (X : Type) (q : call X) : option (exn + X) :=
  match q in call X return option (exn + X) with
  | ec2_describe_images _ _ _ => Some (inr {| Images := found |})
  | _ => None
  end.

(** The listing of the regions raises [e]. *)
Definition listing_raises (e : exn) (X : Type) (q : call X) : option (exn + X) :=
  match q in call X return option (exn + X) with
  | ec2_describe_regions _ => Some (inl e)
  | _ => None
  end.

(** An account without the local file of the descriptor. *)
Definition account_without_file : cloud :=
  {| files := ∅; objects := ∅; snapshots := ∅; images := [];
     public_images := []; regions := ["eu-central-1"] |}.

(** A descriptor without [system] and [boot_mode]. *)
Definition bare_descriptor : gmap string string :=
  list_to_map [ ("file", "disk.img"); ("label", "nixos") ].

(** The arguments of a command line without [--prefix] and [--run-id]. *)
Definition bare_arguments : Namespace :=
  {| ns_image_info := "image-info.json"; ns_s3_bucket := "b";
     ns_debug := false; ns_cleanup := false; ns_copy_to_regions := false;
     ns_public := false; ns_prefix := None; ns_run_id := None |}.

(** A descriptor of a raw disk image. *)
Definition raw_descriptor : gmap string string :=
  list_to_map
    [ ("file", "disk.img"); ("label", "nixos"); ("system", "x86_64-linux");
      ("boot_mode", "uefi"); ("format", "raw") ].


(** * Properties *)

#[local] Set Warnings "-clear-no-such-hyp".

Example sha256_constants :
  length SHA256.K = 64 /\ nth 0 SHA256.K 0%Z = 0x428a2f98%Z
  /\ nth 63 SHA256.K 0%Z = 0xc67178f2%Z
  /\ length SHA256.H0 = 8 /\ nth 0 SHA256.H0 0%Z = 0x6a09e667%Z
  /\ nth 7 SHA256.H0 0%Z = 0x5be0cd19%Z.
Proof. repeat split. Qed.

Example sha256_abc :
  SHA256.hexdigest (SHA256.new "abc")
  = "ba7816bf8f01cfea414140de5dae2223b00361a396177a9cb410ff61f20015ad".
Proof. vm_compute. reflexivity. Qed.

Example sha256_empty :
  SHA256.hexdigest (SHA256.new "")
  = "e3b0c44298fc1c149afbf4c8996fb92427ae41e4649b934ca495991b7852b855".
Proof. vm_compute. reflexivity. Qed.

Example sha256_two_blocks :
  SHA256.hexdigest
    (SHA256.new "abcdbcdecdefdefgefghfghighijhijkijkljklmklmnlmnomnopnopq")
  = "248d6a61d20638b8e5c026930c3e6039a33ce45964ff2167f6ecedd419db06c1".
Proof. vm_compute. reflexivity. Qed.

(** ** Laws of the monad *)
Section MonadLaws.
Context {P : Provider}.

Lemma outcome_bind {A B : Type} (m : M P A) (f : A -> M P B) w :
  outcome (bind m f w) =
  match outcome (m w) with
  | inl e => inl e
  | inr a => outcome (f a (final (m w)))
  end.
Proof. unfold bind. destruct (outcome (m w)); reflexivity. Qed.

Lemma final_bind {A B : Type} (m : M P A) (f : A -> M P B) w :
  final (bind m f w) =
  match outcome (m w) with
  | inl e => final (m w)
  | inr a => final (f a (final (m w)))
  end.
Proof. unfold bind. destruct (outcome (m w)); reflexivity. Qed.

Lemma trace_bind {A B : Type} (m : M P A) (f : A -> M P B) w :
  trace (bind m f w) =
  match outcome (m w) with
  | inl e => trace (m w)
  | inr a => trace (m w) ++ trace (f a (final (m w)))
  end.
Proof. unfold bind. destruct (outcome (m w)); reflexivity. Qed.

Lemma outcome_invoke {X : Type} (c : call X) w :
  outcome (invoke (P:=P) c w) = (respond P X c w).1.
Proof. unfold invoke. destruct (respond P X c w). reflexivity. Qed.

Lemma final_invoke {X : Type} (c : call X) w :
  final (invoke (P:=P) c w) = (respond P X c w).2.
Proof. unfold invoke. destruct (respond P X c w). reflexivity. Qed.

Lemma trace_invoke {X : Type} (c : call X) w :
  trace (invoke (P:=P) c w) = [Ev c (respond P X c w).1].
Proof. unfold invoke. destruct (respond P X c w). reflexivity. Qed.

Lemma outcome_try_except {A : Type} (body : M P A) catches handler w :
  outcome (try_except body catches handler w) =
  match outcome (body w) with
  | inr _ => inr tt
  | inl e => if catches e then outcome (handler (final (body w))) else inl e
  end.
Proof.
  unfold try_except. destruct (outcome (body w)) as [e|]; [|reflexivity].
  destruct (catches e); reflexivity.
Qed.

Lemma final_try_except {A : Type} (body : M P A) catches handler w :
  final (try_except body catches handler w) =
  match outcome (body w) with
  | inr _ => final (body w)
  | inl e => if catches e then final (handler (final (body w)))
             else final (body w)
  end.
Proof.
  unfold try_except. destruct (outcome (body w)) as [e|]; [|reflexivity].
  destruct (catches e); reflexivity.
Qed.

Lemma trace_try_except {A : Type} (body : M P A) catches handler w :
  trace (try_except body catches handler w) =
  match outcome (body w) with
  | inr _ => trace (body w)
  | inl e => if catches e then trace (body w) ++ trace (handler (final (body w)))
             else trace (body w)
  end.
Proof.
  unfold try_except. destruct (outcome (body w)) as [e|]; [|reflexivity].
  destruct (catches e); reflexivity.
Qed.

Lemma outcome_attempt {A : Type} (m : M P A) w :
  outcome (attempt m w) = inr (outcome (m w)).
Proof. reflexivity. Qed.

Lemma final_attempt {A : Type} (m : M P A) w :
  final (attempt m w) = final (m w).
Proof. reflexivity. Qed.

Lemma trace_attempt {A : Type} (m : M P A) w :
  trace (attempt m w) = trace (m w).
Proof. reflexivity. Qed.

End MonadLaws.

(** Reduce the projections of a finished step and the observers on the
    events it made. *)
Ltac tidy :=
  cbn [outcome final trace ret raise assert app fst snd length Nat.eqb
       omap list_omap fmap list_fmap
       ImageId RegionName SnapshotId SnapshotTaskDetail ImportTaskId
       ImportSnapshotTasks Images registered_ImageId copied_ImageId Regions
       meta_region_name
       transfers object_keys imports lookups registrations grants copies
       copy_requests available task_queries failures failure_of
       transfer_of object_key_of import_of lookup_of registration_of grant_of
       copy_of copy_request_of available_of task_query_of].

(** Push the projections of a run to its first call. *)
Ltac project :=
  repeat (first [ rewrite outcome_bind | rewrite trace_bind | rewrite final_bind
                | rewrite outcome_try_except | rewrite trace_try_except
                | rewrite final_try_except ];
          tidy);
  rewrite ?outcome_invoke, ?trace_invoke, ?final_invoke.

(** One step of a run: name the provider's answer to the next call. *)
Ltac answer :=
  project;
  match goal with
  | |- context [respond ?Q ?X ?c ?w] =>
      destruct (respond Q X c w) as [[?e|?x] ?w] eqn:?; tidy
  end.

(** Run a stage to each of its ends: name the answer to every call and
    split on every test. *)
Ltac run_to_ends :=
  repeat (first
            [ answer
            | match goal with
              | |- context [match ?x with _ => _ end] =>
                  lazymatch x with
                  | outcome _ => fail
                  | _ => destruct x eqn:?
                  end
              end ];
          tidy).

(** ** Object Upload *)
Section Upload.
Context {P : Provider}.
Variables (s3 : S3Client) (bucket key file : string).

(** When the probe answers, the stage is the probe alone. *)
Lemma upload_present (w : world P) :
  (respond P _ (s3_head_object bucket key) w).1 = inr tt ->
  upload_to_s3_if_not_exists s3 bucket key file w =
  {| outcome := inr tt;
     final := (respond P _ (s3_head_object bucket key) w).2;
     trace := [Ev (s3_head_object bucket key) (inr tt)] |}.
Proof.
  intros H. unfold upload_to_s3_if_not_exists, try_except.
  rewrite outcome_invoke, final_invoke, trace_invoke, H. reflexivity.
Qed.

(** An exception of the probe that is not a [ClientError] leaves the
    stage as it is, and nothing is transferred. *)
Lemma upload_probe_error_propagates (w : world P) (e : exn) :
  (respond P _ (s3_head_object bucket key) w).1 = inl e ->
  is_ClientError e = false ->
  outcome (upload_to_s3_if_not_exists s3 bucket key file w) = inl e
  /\ transfers (trace (upload_to_s3_if_not_exists s3 bucket key file w)) = [].
Proof.
  intros H Hc. unfold upload_to_s3_if_not_exists.
  project. rewrite H, Hc. auto.
Qed.

(** A [ClientError] of the probe, whatever its code, starts a transfer. *)
Lemma upload_probe_client_error_transfers (w : world P) (code : string) :
  (respond P _ (s3_head_object bucket key) w).1 = inl (ClientError code) ->
  transfers (trace (upload_to_s3_if_not_exists s3 bucket key file w))
  = [(file, bucket, key)].
Proof.
  intros H. unfold upload_to_s3_if_not_exists.
  project. rewrite H. tidy.
  destruct (respond P unit (s3_upload_file file bucket key) _).1;
    reflexivity.
Qed.

End Upload.

(** C1 (the code departs from the claim): the probe of an object that
    exists is refused with a 403 [ClientError]; the stage does not raise
    it: it transfers the file, replaces the stored object and returns. *)
Theorem upload_after_forbidden_probe :
  let r := upload_to_s3_if_not_exists
             (P := Scripted (probe_raises (ClientError "403")) (Cloud "eu-central-1"))
             {| s3_service := "s3" |} "b" "nixos-x86_64-linux.42" "disk.img"
             stocked_account in
  outcome r = inr tt
  /\ transfers (trace r) = [("disk.img", "b", "nixos-x86_64-linux.42")]
  /\ objects stocked_account !! ("b", "nixos-x86_64-linux.42") = Some "<old bytes>"
  /\ objects (final r) !! ("b", "nixos-x86_64-linux.42") = Some "<new bytes>".
Proof. vm_compute. repeat split; reflexivity. Qed.

(** ** Snapshot Import *)

Section SnapshotImport.
Context {P : Provider}.
Variables (ec2 : EC2Client) (s3_bucket s3_key image_format : string).

(** Every run submits one import, and its token is [client_token] of the
    key. *)
Lemma import_snapshot_imports (w : world P) :
  imports (trace (import_snapshot ec2 s3_bucket s3_key image_format w))
  = [ ({| dc_Description := s3_key; dc_Format := image_format;
          dc_UserBucket := {| S3Bucket := s3_bucket; S3Key := s3_key |} |},
       client_token s3_key) ].
Proof.
  unfold import_snapshot.
  answer; [reflexivity|].
  answer; [reflexivity|].
  answer; [reflexivity|].
  destruct (ImportSnapshotTasks _) as [|t ?]; [reflexivity|].
  destruct (SnapshotTaskDetail t) as [d|]; [|reflexivity].
  destruct (SnapshotId d); reflexivity.
Qed.

End SnapshotImport.

(** The stage, once the provider has answered the query of the task with
    [d]: it fails on an empty list, and otherwise reads the first record,
    whatever follows it. *)
Lemma import_snapshot_outcome {P : Provider} (w : world P) (ec2 : EC2Client)
    (s3_bucket s3_key image_format : string) ids d :
  task_queries (trace (import_snapshot ec2 s3_bucket s3_key image_format w))
  = [(ids, inr d)] ->
  outcome (import_snapshot ec2 s3_bucket s3_key image_format w) =
  match ImportSnapshotTasks d with
  | [] => inl AssertionError
  | t :: _ =>
      match SnapshotTaskDetail t ≫= SnapshotId with
      | Some snapshot_id => inr snapshot_id
      | None => inl AssertionError
      end
  end.
Proof.
  unfold import_snapshot.
  answer; [discriminate|].
  answer; [discriminate|].
  answer; [discriminate|].
  intros [= _ <-].
  destruct (ImportSnapshotTasks _) as [|t ?]; [reflexivity|].
  destruct (SnapshotTaskDetail t) as [det|]; [|reflexivity].
  simpl. destruct (SnapshotId det); reflexivity.
Qed.

(** C2 (as amended): when the provider answers the query of the import
    task, an answer with no record makes the stage fail with an
    [AssertionError]; an answer with one record or more makes it read the
    first record only: it returns that record's snapshot id, and fails if
    that record has no detail or the detail no snapshot id. *)
Theorem import_snapshot_reads_first_task {P : Provider} (w : world P)
    (ec2 : EC2Client) (s3_bucket s3_key image_format : string) ids d :
  task_queries (trace (import_snapshot ec2 s3_bucket s3_key image_format w))
  = [(ids, inr d)] ->
  (ImportSnapshotTasks d = [] ->
   outcome (import_snapshot ec2 s3_bucket s3_key image_format w)
   = inl AssertionError)
  /\ (forall t rest snapshot_id,
        ImportSnapshotTasks d = t :: rest ->
        SnapshotTaskDetail t ≫= SnapshotId = Some snapshot_id ->
        outcome (import_snapshot ec2 s3_bucket s3_key image_format w)
        = inr snapshot_id)
  /\ (forall t rest,
        ImportSnapshotTasks d = t :: rest ->
        SnapshotTaskDetail t ≫= SnapshotId = None ->
        outcome (import_snapshot ec2 s3_bucket s3_key image_format w)
        = inl AssertionError).
Proof.
  intros H. rewrite (import_snapshot_outcome _ _ _ _ _ _ _ H).
  repeat split.
  - intros ->. reflexivity.
  - intros t rest s -> ->. reflexivity.
  - intros t rest -> ->. reflexivity.
Qed.

Lemma import_snapshot_reads_first_task_witness :
  let P := Scripted (tasks_answered [task_with_snapshot "snap-1";
                                     task_with_snapshot "snap-2"])
             (Cloud "eu-central-1") in
  let r := import_snapshot (P := P) {| meta_region_name := "eu-central-1" |}
             "b" "nixos-x86_64-linux.42" "VHD" stocked_account in
  task_queries (trace r)
  = [ (["import-snap-" +:+ client_token "nixos-x86_64-linux.42"],
       inr {| ImportSnapshotTasks := [task_with_snapshot "snap-1";
                                      task_with_snapshot "snap-2"] |}) ]
  /\ outcome r = inr "snap-1".
Proof.
  intros P r.
  assert (H : task_queries (trace r)
              = [ (["import-snap-" +:+ client_token "nixos-x86_64-linux.42"],
                   inr {| ImportSnapshotTasks := [task_with_snapshot "snap-1";
                                                  task_with_snapshot "snap-2"] |}) ])
    by (vm_compute; reflexivity).
  split; [exact H|].
  exact (proj1 (proj2 (import_snapshot_reads_first_task (P := P) _ _ _ _ _ _ _ H))
           _ _ "snap-1" eq_refl eq_refl).
Defined.

(** C2 (as stated, refuted): an answer with two records does not make the
    stage fail; it returns the first record's snapshot id. *)
Lemma import_snapshot_two_tasks_returns :
  ~ (forall (P : Provider) (w : world P) (ec2 : EC2Client)
            (s3_bucket s3_key image_format : string) ids d,
        task_queries (trace (import_snapshot ec2 s3_bucket s3_key image_format w))
        = [(ids, inr d)] ->
        length (ImportSnapshotTasks d) <> 1 ->
        exists e, outcome (import_snapshot ec2 s3_bucket s3_key image_format w)
                  = inl e).
Proof.
  intros H.
  destruct (H (Scripted (tasks_answered [task_with_snapshot "snap-1";
                                         task_with_snapshot "snap-2"])
                 (Cloud "eu-central-1"))
              stocked_account {| meta_region_name := "eu-central-1" |}
              "b" "nixos-x86_64-linux.42" "VHD"
              ["import-snap-" +:+ client_token "nixos-x86_64-linux.42"]
              {| ImportSnapshotTasks := [task_with_snapshot "snap-1";
                                         task_with_snapshot "snap-2"] |})
    as [e He].
  - vm_compute. reflexivity.
  - simpl. lia.
  - vm_compute in He. discriminate He.
Qed.

(** C4: the client token of the import submitted is [client_token] of the
    storage key, the SHA-256 of the key followed by the salt: two runs
    with the same key submit the same token, whatever the provider, its
    state (the files and the objects stored), the client, the bucket and
    the format. *)
Theorem client_token_of_key_only (P1 P2 : Provider) (w1 : world P1)
    (w2 : world P2) (ec2_1 ec2_2 : EC2Client)
    (bucket1 bucket2 format1 format2 key : string) :
  let run1 := import_snapshot ec2_1 bucket1 key format1 w1 in
  let run2 := import_snapshot ec2_2 bucket2 key format2 w2 in
  (imports (trace run1)).*2 = (imports (trace run2)).*2
  /\ (imports (trace run1)).*2
     = [SHA256.hexdigest (SHA256.update (SHA256.new key) "x")].
Proof.
  intros run1 run2. subst run1 run2.
  rewrite !import_snapshot_imports. split; reflexivity.
Qed.

Example client_token_nixos :
  client_token "nixos-x86_64-linux.42"
  = "8a2bd3318dd613234d34db4a04b3e23adbad18ac6fb114b5d66fe3efcb8f8fb4".
Proof. vm_compute. reflexivity. Qed.

(** ** Image Registration *)

Lemma architecture_of_x86_64 : architecture_of "x86_64-linux" = Some "x86_64".
Proof. reflexivity. Qed.

Lemma architecture_of_aarch64 : architecture_of "aarch64-linux" = Some "arm64".
Proof. reflexivity. Qed.

Lemma architecture_of_other (system : string) :
  system <> "x86_64-linux" -> system <> "aarch64-linux" ->
  architecture_of system = None.
Proof.
  intros H1 H2. unfold architecture_of.
  apply String.eqb_neq in H1, H2. rewrite H1, H2. reflexivity.
Qed.

Lemma architecture_of_closed (system arch : string) :
  architecture_of system = Some arch ->
  (system = "x86_64-linux" /\ arch = "x86_64")
  \/ (system = "aarch64-linux" /\ arch = "arm64").
Proof.
  unfold architecture_of.
  destruct (String.eqb_spec system "x86_64-linux") as [->|_]; [intros [= <-]; auto|].
  destruct (String.eqb_spec system "aarch64-linux") as [->|_]; [intros [= <-]; auto|].
  discriminate.
Qed.

Section Registration.
Context {P : Provider}.
Variables (ec2 : EC2Client) (image_name : string)
  (image_info : gmap string string) (snapshot_id : string).

(** The registration requested for a system with a known architecture. *)
Lemma register_new_image_request (w : world P) (public : bool)
    (system arch boot_mode : string) :
  image_info !! "system" = Some system ->
  architecture_of system = Some arch ->
  image_info !! "boot_mode" = Some boot_mode ->
  lookups (trace (register_image_if_not_exists ec2 image_name image_info
                    snapshot_id public w))
  = [inr {| Images := [] |}] ->
  (registrations (trace (register_image_if_not_exists ec2 image_name image_info
                           snapshot_id public w))).*1
  = [ {| Name := image_name; Architecture := arch; BootMode := boot_mode;
         BlockDeviceMappings :=
           [ {| DeviceName := "/dev/xvda";
                Ebs := {| ebs_SnapshotId := snapshot_id;
                          ebs_VolumeType := "gp3" |} |} ];
         RootDeviceName := "/dev/xvda"; VirtualizationType := "hvm";
         EnaSupport := true; ImdsSupport := "v2.0";
         SriovNetSupport := "simple" |} ].
Proof.
  intros Hs Ha Hb.
  unfold register_image_if_not_exists, getitem, launch_permission_all.
  answer; [discriminate|].
  intros [= Himg]. rewrite Himg, Hs, Ha, Hb. tidy.
  answer; [reflexivity|].
  answer; [reflexivity|].
  destruct public; tidy; [answer|]; reflexivity.
Qed.

(** An unknown system registers nothing, on either path. *)
Lemma register_unknown_system_no_request (w : world P) (public : bool)
    (system : string) :
  image_info !! "system" = Some system ->
  architecture_of system = None ->
  registrations (trace (register_image_if_not_exists ec2 image_name image_info
                          snapshot_id public w)) = [].
Proof.
  intros Hs Ha.
  unfold register_image_if_not_exists, getitem, launch_permission_all, assert.
  rewrite Hs, Ha. run_to_ends; reflexivity.
Qed.

Lemma register_unknown_system_raises (w : world P) (public : bool)
    (system : string) :
  image_info !! "system" = Some system ->
  architecture_of system = None ->
  lookups (trace (register_image_if_not_exists ec2 image_name image_info
                    snapshot_id public w))
  = [inr {| Images := [] |}] ->
  outcome (register_image_if_not_exists ec2 image_name image_info
             snapshot_id public w)
  = inl (Exception ("Unknown system: " +:+ system)).
Proof.
  intros Hs Ha.
  unfold register_image_if_not_exists, getitem, launch_permission_all.
  answer; [discriminate|].
  intros [= Himg]. rewrite Himg, Hs, Ha. reflexivity.
Qed.

End Registration.

(** C5: when the name lookup finds no image, so that a new image is to be
    registered: the system ["x86_64-linux"] is registered with
    architecture ["x86_64"], ["aarch64-linux"] with ["arm64"], and for
    every other system the stage raises [Exception("Unknown system: ...")]
    and sends no registration. *)
Theorem architecture_mapping_closed {P : Provider} (w : world P)
    (ec2 : EC2Client) (image_name : string) (image_info : gmap string string)
    (snapshot_id : string) (public : bool) (system : string) :
  let r := register_image_if_not_exists ec2 image_name image_info snapshot_id
             public w in
  image_info !! "system" = Some system ->
  lookups (trace r) = [inr {| Images := [] |}] ->
  (system = "x86_64-linux" -> is_Some (image_info !! "boot_mode") ->
   Architecture <$> (registrations (trace r)).*1 = ["x86_64"])
  /\ (system = "aarch64-linux" -> is_Some (image_info !! "boot_mode") ->
      Architecture <$> (registrations (trace r)).*1 = ["arm64"])
  /\ (system <> "x86_64-linux" -> system <> "aarch64-linux" ->
      outcome r = inl (Exception ("Unknown system: " +:+ system))
      /\ registrations (trace r) = []).
Proof.
  intros r Hs Hl. subst r. repeat split.
  - intros -> [bm Hb].
    rewrite (register_new_image_request _ _ _ _ _ _ _ _ _ Hs
               architecture_of_x86_64 Hb Hl).
    reflexivity.
  - intros -> [bm Hb].
    rewrite (register_new_image_request _ _ _ _ _ _ _ _ _ Hs
               architecture_of_aarch64 Hb Hl).
    reflexivity.
  - apply (register_unknown_system_raises _ _ _ _ _ _ _ Hs); [|exact Hl].
    apply architecture_of_other; assumption.
  - apply (register_unknown_system_no_request _ _ _ _ _ _ _ Hs).
    apply architecture_of_other; assumption.
Qed.

Lemma architecture_mapping_closed_witness :
  let r := register_image_if_not_exists (P := Cloud "eu-central-1")
             {| meta_region_name := "eu-central-1" |} "nixos-riscv64-linux.42"
             riscv_descriptor "snap-1" false fresh_account in
  riscv_descriptor !! "system" = Some "riscv64-linux"
  /\ lookups (trace r) = [inr {| Images := [] |}]
  /\ outcome r = inl (Exception "Unknown system: riscv64-linux")
  /\ registrations (trace r) = [].
Proof.
  intros r.
  assert (Hs : riscv_descriptor !! "system" = Some "riscv64-linux")
    by (vm_compute; reflexivity).
  assert (Hl : lookups (trace r) = [inr {| Images := [] |}])
    by (vm_compute; reflexivity).
  split; [exact Hs|]. split; [exact Hl|].
  apply (architecture_mapping_closed (P := Cloud "eu-central-1") fresh_account
           {| meta_region_name := "eu-central-1" |} "nixos-riscv64-linux.42"
           riscv_descriptor "snap-1" false "riscv64-linux" Hs Hl); discriminate.
Defined.

(** The stage with [public] set, on the path where the lookup finds the
    image. *)
Lemma register_found_grants {P : Provider} (w : world P) (ec2 : EC2Client)
    (image_name : string) (image_info : gmap string string)
    (snapshot_id : string) (image : ImageTypeDef) (image_id : string) :
  let r := register_image_if_not_exists ec2 image_name image_info snapshot_id
             true w in
  lookups (trace r) = [inr {| Images := [image] |}] ->
  ImageId image = Some image_id ->
  available (trace r) = [(meta_region_name ec2, [image_id])] ->
  grants (trace r)
  = [(meta_region_name ec2, image_id, "launchPermission", ["all"])]
  /\ registrations (trace r) = [].
Proof.
  intros r. subst r.
  unfold register_image_if_not_exists, getitem, launch_permission_all, assert.
  answer; [discriminate|].
  intros [= Himg] Hid. rewrite Himg. tidy. project. rewrite Hid. tidy.
  answer; [discriminate|].
  intros _. answer; split; reflexivity.
Qed.

(** The stage with [public] set, whenever it returns. *)
Lemma register_returned_grants {P : Provider} (w : world P) (ec2 : EC2Client)
    (image_name : string) (image_info : gmap string string)
    (snapshot_id image_id : string) :
  let r := register_image_if_not_exists ec2 image_name image_info snapshot_id
             true w in
  outcome r = inr image_id ->
  grants (trace r)
  = [(meta_region_name ec2, image_id, "launchPermission", ["all"])].
Proof.
  intros r. subst r.
  unfold register_image_if_not_exists, getitem, launch_permission_all, assert.
  run_to_ends; intros; simplify_eq; reflexivity.
Qed.

(** C9: with [public] set, every call of the stage that returns has
    issued the grant of the launch permission to the group ["all"] on the
    image it returns; and on the path where the lookup by name finds the
    image, the grant is issued as soon as the image is available, and
    nothing is registered. *)
Theorem public_grant_on_every_call {P : Provider} (w : world P)
    (ec2 : EC2Client) (image_name : string) (image_info : gmap string string)
    (snapshot_id : string) (image : ImageTypeDef) (image_id : string) :
  let r := register_image_if_not_exists ec2 image_name image_info snapshot_id
             true w in
  (outcome r = inr image_id ->
   grants (trace r)
   = [(meta_region_name ec2, image_id, "launchPermission", ["all"])])
  /\ (lookups (trace r) = [inr {| Images := [image] |}] ->
      ImageId image = Some image_id ->
      available (trace r) = [(meta_region_name ec2, [image_id])] ->
      grants (trace r)
      = [(meta_region_name ec2, image_id, "launchPermission", ["all"])]
      /\ registrations (trace r) = []).
Proof.
  intros r. split.
  - apply register_returned_grants.
  - apply register_found_grants.
Qed.

Lemma public_grant_on_every_call_witness :
  let ec2 := {| meta_region_name := "eu-central-1" |} in
  let r := register_image_if_not_exists (P := Cloud "eu-central-1") ec2
             "nixos-x86_64-linux.42" nixos_descriptor "snap-1" true
             account_with_image in
  (outcome r = inr "ami-0123"
   /\ lookups (trace r) = [inr {| Images := [ {| ImageId := Some "ami-0123" |} ] |}]
   /\ available (trace r) = [("eu-central-1", ["ami-0123"])])
  /\ grants (trace r) = [("eu-central-1", "ami-0123", "launchPermission", ["all"])]
  /\ registrations (trace r) = [].
Proof.
  intros ec2 r.
  assert (Ho : outcome r = inr "ami-0123") by (vm_compute; reflexivity).
  assert (Hl : lookups (trace r)
               = [inr {| Images := [ {| ImageId := Some "ami-0123" |} ] |}])
    by (vm_compute; reflexivity).
  assert (Ha : available (trace r) = [("eu-central-1", ["ami-0123"])])
    by (vm_compute; reflexivity).
  split; [auto|].
  destruct (public_grant_on_every_call (P := Cloud "eu-central-1")
              account_with_image ec2 "nixos-x86_64-linux.42" nixos_descriptor
              "snap-1" {| ImageId := Some "ami-0123" |} "ami-0123")
    as [Hret Hfound].
  split; [exact (Hret Ho)|].
  exact (proj2 (Hfound Hl eq_refl Ha)).
Defined.

(** ** Object Upload against the object store *)
Section UploadTwice.
Variables (region : string) (s3 : S3Client) (bucket key file : string).

Lemma cloud_upload_absent (c : cloud) (data : string) :
  files c !! file = Some data ->
  objects c !! (bucket, key) = None ->
  upload_to_s3_if_not_exists (P := Cloud region) s3 bucket key file c =
  {| outcome := inr tt;
     final := {| files := files c;
                 objects := <[(bucket, key) := data]> (objects c);
                 snapshots := snapshots c; images := images c;
                 public_images := public_images c; regions := regions c |};
     trace := [ Ev (s3_head_object bucket key) (inl (ClientError "404"));
                Ev (s3_upload_file file bucket key) (inr tt);
                Ev (s3_wait_object_exists bucket key) (inr tt) ] |}.
Proof.
  intros Hf Ho.
  unfold upload_to_s3_if_not_exists, try_except, bind, invoke.
  cbn [respond Cloud cloud_respond]. rewrite Ho.
  cbn [outcome final trace is_ClientError]. rewrite Hf.
  cbn [outcome final trace objects app]. rewrite lookup_insert_eq.
  reflexivity.
Qed.

Lemma cloud_upload_present (c : cloud) (data : string) :
  objects c !! (bucket, key) = Some data ->
  upload_to_s3_if_not_exists (P := Cloud region) s3 bucket key file c =
  {| outcome := inr tt; final := c;
     trace := [Ev (s3_head_object bucket key) (inr tt)] |}.
Proof.
  intros Ho.
  unfold upload_to_s3_if_not_exists, try_except, invoke.
  cbn [respond Cloud cloud_respond]. rewrite Ho. reflexivity.
Qed.

End UploadTwice.

(** C6: when the existence probe reports the object present, the stage
    transfers nothing and returns; and against the object store, from a
    state where the object is absent and the local file readable, two
    calls in sequence make one transfer in all: the first stores the
    file, the second is the probe alone and leaves the store as the first
    left it. *)
Theorem upload_idempotent :
  (forall (P : Provider) (w : world P) (s3 : S3Client)
          (bucket key file : string),
      (respond P _ (s3_head_object bucket key) w).1 = inr tt ->
      outcome (upload_to_s3_if_not_exists s3 bucket key file w) = inr tt
      /\ transfers (trace (upload_to_s3_if_not_exists s3 bucket key file w)) = [])
  /\ (forall (region : string) (c : cloud) (s3 : S3Client)
             (bucket key file data : string),
         files c !! file = Some data ->
         objects c !! (bucket, key) = None ->
         let first :=
           upload_to_s3_if_not_exists (P := Cloud region) s3 bucket key file c in
         let second :=
           upload_to_s3_if_not_exists (P := Cloud region) s3 bucket key file
             (final first) in
         outcome first = inr tt /\ outcome second = inr tt
         /\ transfers (trace first ++ trace second) = [(file, bucket, key)]
         /\ transfers (trace second) = []
         /\ objects (final first) !! (bucket, key) = Some data
         /\ final second = final first).
Proof.
  split.
  - intros P w s3 bucket key file H.
    rewrite (upload_present s3 bucket key file w H). split; reflexivity.
  - intros region c s3 bucket key file data Hf Ho first second.
    subst second first.
    rewrite (cloud_upload_absent region s3 bucket key file c data Hf Ho).
    cbn [final outcome trace].
    rewrite (cloud_upload_present region s3 bucket key file _ data)
      by apply lookup_insert_eq.
    cbn [final outcome trace objects].
    rewrite lookup_insert_eq. repeat split; reflexivity.
Qed.

Lemma upload_idempotent_witness :
  let s3 := {| s3_service := "s3" |} in
  let key := "nixos-x86_64-linux.42" in
  let again := upload_to_s3_if_not_exists (P := Cloud "eu-central-1") s3 "b" key
                 "disk.img" stocked_account in
  let first := upload_to_s3_if_not_exists (P := Cloud "eu-central-1") s3 "b" key
                 "disk.img" fresh_account in
  let second := upload_to_s3_if_not_exists (P := Cloud "eu-central-1") s3 "b" key
                  "disk.img" (final first) in
  ((respond (Cloud "eu-central-1") _ (s3_head_object "b" key) stocked_account).1
   = inr tt
   /\ files fresh_account !! "disk.img" = Some "<image bytes>"
   /\ objects fresh_account !! ("b", key) = None)
  /\ transfers (trace again) = []
  /\ transfers (trace first ++ trace second) = [("disk.img", "b", key)]
  /\ final second = final first.
Proof.
  intros s3 key again first second.
  assert (Hp : (respond (Cloud "eu-central-1") _ (s3_head_object "b" key)
                  stocked_account).1 = inr tt) by (vm_compute; reflexivity).
  assert (Hf : files fresh_account !! "disk.img" = Some "<image bytes>")
    by (vm_compute; reflexivity).
  assert (Ho : objects fresh_account !! ("b", key) = None)
    by (vm_compute; reflexivity).
  destruct upload_idempotent as [Hpresent Htwice].
  split; [auto|]. split.
  - exact (proj2 (Hpresent (Cloud "eu-central-1") stocked_account s3 "b" key
                    "disk.img" Hp)).
  - destruct (Htwice "eu-central-1" fresh_account s3 "b" key "disk.img"
                "<image bytes>" Hf Ho) as (_ & _ & H1 & _ & _ & H2).
    split; [exact H1 | exact H2].
Defined.

(** ** What each stage calls

    The observers distribute over the parts of a trace, and each stage
    makes the calls of its own step only. *)
Lemma transfers_app (a b : list event) :
  transfers (a ++ b) = transfers a ++ transfers b.
Proof. apply omap_app. Qed.

Lemma object_keys_app (a b : list event) :
  object_keys (a ++ b) = object_keys a ++ object_keys b.
Proof. apply omap_app. Qed.

Lemma imports_app (a b : list event) :
  imports (a ++ b) = imports a ++ imports b.
Proof. apply omap_app. Qed.

Lemma lookups_app (a b : list event) :
  lookups (a ++ b) = lookups a ++ lookups b.
Proof. apply omap_app. Qed.

Lemma registrations_app (a b : list event) :
  registrations (a ++ b) = registrations a ++ registrations b.
Proof. apply omap_app. Qed.

Lemma grants_app (a b : list event) :
  grants (a ++ b) = grants a ++ grants b.
Proof. apply omap_app. Qed.

Lemma copies_app (a b : list event) :
  copies (a ++ b) = copies a ++ copies b.
Proof. apply omap_app. Qed.

Lemma copy_requests_app (a b : list event) :
  copy_requests (a ++ b) = copy_requests a ++ copy_requests b.
Proof. apply omap_app. Qed.

Lemma available_app (a b : list event) :
  available (a ++ b) = available a ++ available b.
Proof. apply omap_app. Qed.

Lemma failures_app (a b : list event) :
  failures (a ++ b) = failures a ++ failures b.
Proof. apply omap_app. Qed.

(** Distribute the observers over the parts of a trace. *)
Ltac distribute :=
  repeat match goal with
    | |- context [transfers (?a ++ ?b)] => rewrite (transfers_app a b)
    | |- context [object_keys (?a ++ ?b)] => rewrite (object_keys_app a b)
    | |- context [imports (?a ++ ?b)] => rewrite (imports_app a b)
    | |- context [lookups (?a ++ ?b)] => rewrite (lookups_app a b)
    | |- context [registrations (?a ++ ?b)] => rewrite (registrations_app a b)
    | |- context [grants (?a ++ ?b)] => rewrite (grants_app a b)
    | |- context [copies (?a ++ ?b)] => rewrite (copies_app a b)
    | |- context [copy_requests (?a ++ ?b)] => rewrite (copy_requests_app a b)
    | |- context [available (?a ++ ?b)] => rewrite (available_app a b)
    | |- context [failures (?a ++ ?b)] => rewrite (failures_app a b)
    end.

(** Prove that a stage makes no call of some kind, by running it to each
    of its ends. *)
Ltac silent stage :=
  intros; unfold stage, getitem, launch_permission_all, boto3_client_ec2, assert;
  run_to_ends; reflexivity.

Section Footprints.
Context {P : Provider}.

Lemma upload_object_keys (s3 : S3Client) (bucket key file : string)
    (w : world P) :
  Forall (fun bk => bk = (bucket, key))
    (object_keys (trace (upload_to_s3_if_not_exists s3 bucket key file w))).
Proof.
  unfold upload_to_s3_if_not_exists. run_to_ends; repeat constructor.
Qed.

Lemma upload_imports s3 bucket key file (w : world P) :
  imports (trace (upload_to_s3_if_not_exists s3 bucket key file w)) = [].
Proof. silent (@upload_to_s3_if_not_exists). Qed.

Lemma upload_lookups s3 bucket key file (w : world P) :
  lookups (trace (upload_to_s3_if_not_exists s3 bucket key file w)) = [].
Proof. silent (@upload_to_s3_if_not_exists). Qed.

Lemma upload_registrations s3 bucket key file (w : world P) :
  registrations (trace (upload_to_s3_if_not_exists s3 bucket key file w)) = [].
Proof. silent (@upload_to_s3_if_not_exists). Qed.

Lemma upload_grants s3 bucket key file (w : world P) :
  grants (trace (upload_to_s3_if_not_exists s3 bucket key file w)) = [].
Proof. silent (@upload_to_s3_if_not_exists). Qed.

Lemma upload_copy_requests s3 bucket key file (w : world P) :
  copy_requests (trace (upload_to_s3_if_not_exists s3 bucket key file w)) = [].
Proof. silent (@upload_to_s3_if_not_exists). Qed.

Lemma import_object_keys ec2 bucket key fmt (w : world P) :
  object_keys (trace (import_snapshot ec2 bucket key fmt w)) = [].
Proof. silent (@import_snapshot). Qed.

Lemma import_lookups ec2 bucket key fmt (w : world P) :
  lookups (trace (import_snapshot ec2 bucket key fmt w)) = [].
Proof. silent (@import_snapshot). Qed.

Lemma import_registrations ec2 bucket key fmt (w : world P) :
  registrations (trace (import_snapshot ec2 bucket key fmt w)) = [].
Proof. silent (@import_snapshot). Qed.

Lemma import_grants ec2 bucket key fmt (w : world P) :
  grants (trace (import_snapshot ec2 bucket key fmt w)) = [].
Proof. silent (@import_snapshot). Qed.

Lemma import_copy_requests ec2 bucket key fmt (w : world P) :
  copy_requests (trace (import_snapshot ec2 bucket key fmt w)) = [].
Proof. silent (@import_snapshot). Qed.

Lemma register_object_keys ec2 name info snap public (w : world P) :
  object_keys (trace (register_image_if_not_exists ec2 name info snap public w))
  = [].
Proof. silent (@register_image_if_not_exists). Qed.

Lemma register_imports ec2 name info snap public (w : world P) :
  imports (trace (register_image_if_not_exists ec2 name info snap public w))
  = [].
Proof. silent (@register_image_if_not_exists). Qed.

Lemma register_copy_requests ec2 name info snap public (w : world P) :
  copy_requests (trace (register_image_if_not_exists ec2 name info snap public w))
  = [].
Proof. silent (@register_image_if_not_exists). Qed.

Lemma register_private_grants ec2 name info snap (w : world P) :
  grants (trace (register_image_if_not_exists ec2 name info snap false w)) = [].
Proof. silent (@register_image_if_not_exists). Qed.

End Footprints.

(** ** Region Replication *)
Section Replication.
Context {P : Provider}.
Variables (public : bool) (image_id image_name source_region : string).

(** A task that returns has copied the image to its region and waited
    for the copy; it made no call that raised. *)
Lemma copy_task_returned (target : RegionTypeDef) (w : world P) region id :
  outcome (_copy_image public image_id image_name source_region target w) = inr (region, id) ->
  RegionName target = Some region
  /\ copies (trace (_copy_image public image_id image_name source_region target w)) = [(region, id)]
  /\ available (trace (_copy_image public image_id image_name source_region target w)) = [(region, [id])]
  /\ copy_requests (trace (_copy_image public image_id image_name source_region target w)) = [(region, image_id)]
  /\ failures (trace (_copy_image public image_id image_name source_region target w)) = [].
Proof.
  unfold _copy_image, copy_image, boto3_client_ec2, launch_permission_all.
  destruct (RegionName target) as [name|]; [|discriminate].
  cbn [default]. run_to_ends; intros; simplify_eq; repeat split; reflexivity.
Qed.

(** A task that raises made at most one call that raised, its last, and
    raises the exception of that call; with no such call, the target had
    no name. *)
Lemma copy_task_raised (target : RegionTypeDef) (w : world P) e :
  outcome (_copy_image public image_id image_name source_region target w) = inl e ->
  (exists region, RegionName target = Some region
                  /\ failures (trace (_copy_image public image_id image_name source_region target w)) = [(region, e)])
  \/ (RegionName target = None /\ e = AssertionError
      /\ trace (_copy_image public image_id image_name source_region target w) = []).
Proof.
  unfold _copy_image, copy_image, boto3_client_ec2, launch_permission_all.
  destruct (RegionName target) as [name|].
  - cbn [default]. intros H. left. exists name. split; [reflexivity|].
    revert H. run_to_ends; intros; simplify_eq; reflexivity.
  - intros [= <-]. right. repeat split; reflexivity.
Qed.

Lemma executor_map_cons {A B : Type} (fn : A -> M P B) (x : A)
    (rest : list A) (w : world P) :
  outcome (executor_map fn (x :: rest) w)
  = match outcome (executor_map fn rest (final (fn x w))) with
    | inl e => inl e
    | inr rs => inr (outcome (fn x w) :: rs)
    end
  /\ trace (executor_map fn (x :: rest) w)
     = trace (fn x w) ++ trace (executor_map fn rest (final (fn x w))).
Proof.
  cbn [executor_map]. project. rewrite !outcome_attempt, !final_attempt,
    !trace_attempt.
  project. destruct (outcome (executor_map fn rest (final (fn x w)))); tidy.
  - split; reflexivity.
  - rewrite app_nil_r. split; reflexivity.
Qed.

(** The pool always hands back one future per item. *)
Lemma executor_map_returns {A B : Type} (fn : A -> M P B) (items : list A)
    (w : world P) :
  exists futures, outcome (executor_map fn items w) = inr futures
                  /\ length futures = length items.
Proof.
  revert w. induction items as [|x rest IH]; intros w.
  - exists []. split; reflexivity.
  - destruct (IH (final (fn x w))) as (rs & Hrs & Hlen).
    exists (outcome (fn x w) :: rs).
    rewrite (proj1 (executor_map_cons fn x rest w)), Hrs.
    split; [reflexivity | cbn; congruence].
Qed.

(** When no task raised: the pairs returned are the copies made, in the
    order of the targets, and each copy was waited for. *)
Lemma executor_map_all_returned (targets : list RegionTypeDef) (w : world P)
    futures :
  outcome (executor_map (_copy_image public image_id image_name source_region) targets w) = inr futures ->
  first_error futures = None ->
  RegionName <$> targets = Some <$> (returned futures).*1
  /\ copies (trace (executor_map (_copy_image public image_id image_name source_region) targets w)) = returned futures
  /\ available (trace (executor_map (_copy_image public image_id image_name source_region) targets w))
     = (fun p => (p.1, [p.2])) <$> returned futures
  /\ copy_requests (trace (executor_map (_copy_image public image_id image_name source_region) targets w))
     = (fun p => (p.1, image_id)) <$> returned futures
  /\ failures (trace (executor_map (_copy_image public image_id image_name source_region) targets w)) = [].
Proof.
  revert w futures. induction targets as [|x rest IH]; intros w futures.
  - intros [= <-] _. repeat split; reflexivity.
  - destruct (executor_map_cons (_copy_image public image_id image_name source_region) x rest w) as [-> ->].
    destruct (outcome (executor_map (_copy_image public image_id image_name source_region) rest (final (_copy_image public image_id image_name source_region x w))))
      as [|rs] eqn:Hrs; [discriminate|].
    intros [= <-]. cbn [first_error returned].
    destruct (outcome (_copy_image public image_id image_name source_region x w)) as [e|[region id]] eqn:Hx; [discriminate|].
    intros Hnone.
    destruct (copy_task_returned x w region id Hx) as (Hn & Hc & Ha & Hq & Hf).
    destruct (IH _ _ Hrs Hnone) as (IHn & IHc & IHa & IHq & IHf).
    distribute.
    rewrite Hc, Ha, Hq, Hf, IHc, IHa, IHq, IHf.
    cbn [fmap list_fmap fst snd app]. rewrite Hn.
    repeat split; try reflexivity.
    f_equal. exact IHn.
Qed.

(** When a task raised: the calls that raised are those of the failing
    tasks, and the first of them is the first failing task's if every
    target before it has a name. *)
Lemma executor_map_failures (targets : list RegionTypeDef) (w : world P)
    futures :
  outcome (executor_map (_copy_image public image_id image_name source_region) targets w) = inr futures ->
  (failures (trace (executor_map (_copy_image public image_id image_name source_region) targets w)) <> [] ->
   first_error futures <> None)
  /\ (Forall (fun t => is_Some (RegionName t)) targets ->
      first_error futures
      = snd <$> head (failures (trace (executor_map (_copy_image public image_id image_name source_region) targets w)))).
Proof.
  revert w futures. induction targets as [|x rest IH]; intros w futures.
  - intros [= <-]. split; [intros H; contradiction H; reflexivity|].
    reflexivity.
  - destruct (executor_map_cons (_copy_image public image_id image_name source_region) x rest w) as [-> ->].
    destruct (outcome (executor_map (_copy_image public image_id image_name source_region) rest (final (_copy_image public image_id image_name source_region x w))))
      as [|rs] eqn:Hrs; [discriminate|].
    intros [= <-]. cbn [first_error].
    destruct (IH _ _ Hrs) as [IH1 IH2].
    distribute.
    destruct (outcome (_copy_image public image_id image_name source_region x w)) as [e|[region id]] eqn:Hx.
    + split; [discriminate|]. intros Hall.
      destruct (copy_task_raised x w e Hx) as [(region & _ & ->)|(Hn & _)].
      * reflexivity.
      * apply Forall_cons in Hall as [[? Hs] _]. congruence.
    + destruct (copy_task_returned x w region id Hx) as (_ & _ & _ & _ & ->).
      cbn [app]. split; [exact IH1|].
      intros Hall. apply Forall_cons in Hall as [_ Hall]. exact (IH2 Hall).
Qed.

Lemma dict_of_results_spec (futures : list (exn + string * string))
    (acc : gmap string string) :
  dict_of_results futures acc
  = match first_error futures with
    | Some e => inl e
    | None => inr (fold_left (fun acc kv => <[kv.1 := kv.2]> acc)
                     (returned futures) acc)
    end.
Proof.
  revert acc. induction futures as [|[e|[k v]] rest IH]; intros acc.
  - reflexivity.
  - reflexivity.
  - cbn [dict_of_results first_error returned fold_left]. apply IH.
Qed.

(** The stage, from the futures of its tasks. *)
Lemma copy_image_to_regions_outcome (targets : list RegionTypeDef)
    (w : world P) futures :
  outcome (executor_map (_copy_image public image_id image_name source_region) targets w) = inr futures ->
  outcome (copy_image_to_regions image_id image_name source_region targets
             public w)
  = match first_error futures with
    | Some e => inl e
    | None => inr (<[source_region := image_id]> (dict (returned futures)))
    end
  /\ trace (copy_image_to_regions image_id image_name source_region targets
              public w)
     = trace (executor_map (_copy_image public image_id image_name source_region) targets w).
Proof.
  intros H. unfold copy_image_to_regions. project. rewrite H. tidy.
  rewrite dict_of_results_spec.
  destruct (first_error futures); tidy; rewrite app_nil_r; split; reflexivity.
Qed.

End Replication.

(** ** The result map *)
Lemma dict_fold_dom (pairs : list (string * string)) (acc : gmap string string) :
  dom (fold_left (fun acc kv => <[kv.1 := kv.2]> acc) pairs acc)
  = dom acc ∪ list_to_set pairs.*1.
Proof.
  revert acc. induction pairs as [|[k v] rest IH]; intros acc; cbn.
  - set_solver.
  - rewrite IH, dom_insert_L. set_solver.
Qed.

Lemma dict_fold_lookup (pairs : list (string * string))
    (acc : gmap string string) (k v : string) :
  fold_left (fun acc kv => <[kv.1 := kv.2]> acc) pairs acc !! k = Some v ->
  (k, v) ∈ pairs \/ acc !! k = Some v.
Proof.
  revert acc. induction pairs as [|[k' v'] rest IH]; intros acc; cbn.
  - auto.
  - intros H. destruct (IH _ H) as [Hin|Hacc].
    + left. apply elem_of_cons. auto.
    + destruct (decide (k' = k)) as [->|Hne].
      * rewrite lookup_insert_eq in Hacc. injection Hacc as ->.
        left. apply elem_of_cons. auto.
      * rewrite lookup_insert_ne in Hacc by exact Hne. auto.
Qed.

Lemma dict_dom (pairs : list (string * string)) :
  dom (dict pairs) = list_to_set pairs.*1.
Proof. unfold dict. rewrite dict_fold_dom. set_solver. Qed.

Lemma dict_lookup (pairs : list (string * string)) (k v : string) :
  dict pairs !! k = Some v -> (k, v) ∈ pairs.
Proof.
  intros H. destruct (dict_fold_lookup pairs ∅ k v H) as [Hin|Hempty].
  - exact Hin.
  - rewrite lookup_empty in Hempty. discriminate.
Qed.

(** C7: when the stage returns, every target has a name and the map has
    one entry per region of the source and the targets, and no other: the
    entry of the source region is the source image id, and the entry of a
    target region is an id its copy returned, a copy that was waited for
    until available before the stage returned.  With distinct targets
    that exclude the source, the map has one entry more than there are
    targets. *)
Theorem replication_map_complete {P : Provider} (w : world P)
    (image_id image_name source_region : string)
    (target_regions : list RegionTypeDef) (public : bool)
    (m : gmap string string) :
  let r := copy_image_to_regions image_id image_name source_region
             target_regions public w in
  outcome r = inr m ->
  exists targets : list string,
    RegionName <$> target_regions = Some <$> targets
    /\ dom m = {[source_region]} ∪ list_to_set targets
    /\ size m = size (({[source_region]} ∪ list_to_set targets) : gset string)
    /\ m !! source_region = Some image_id
    /\ (forall t, t ∈ targets -> t <> source_region ->
          exists id, m !! t = Some id
                     /\ (t, id) ∈ copies (trace r)
                     /\ (t, [id]) ∈ available (trace r))
    /\ (NoDup targets -> source_region ∉ targets ->
        size m = S (length targets)).
Proof.
  intros r Hm. subst r.
  destruct (executor_map_returns
              (_copy_image public image_id image_name source_region)
              target_regions w) as (futures & Hf & _).
  destruct (copy_image_to_regions_outcome public image_id image_name
              source_region target_regions w futures Hf) as [Ho Ht].
  rewrite Ho in Hm. rewrite Ht. clear Ho Ht.
  destruct (first_error futures) eqn:Hnone; [discriminate|].
  injection Hm as <-.
  destruct (executor_map_all_returned public image_id image_name source_region
              target_regions w futures Hf Hnone) as (Hn & Hc & Ha & _ & _).
  rewrite Hc, Ha. clear Hc Ha.
  set (pairs := returned futures) in *.
  assert (Hdom : dom (<[source_region := image_id]> (dict pairs))
                 = {[source_region]} ∪ list_to_set pairs.*1)
    by (rewrite dom_insert_L, dict_dom; reflexivity).
  exists pairs.*1. split; [exact Hn|]. split; [exact Hdom|].
  split; [rewrite <- Hdom; symmetry; apply size_dom|].
  split; [apply lookup_insert_eq|]. split.
  - intros t Hin Hne.
    assert (Hsome : is_Some (dict pairs !! t)).
    { apply elem_of_dom. rewrite dict_dom. apply elem_of_list_to_set.
      exact Hin. }
    destruct Hsome as [id Hid]. exists id.
    rewrite lookup_insert_ne by congruence. split; [exact Hid|].
    apply dict_lookup in Hid. split; [exact Hid|].
    apply (list_elem_of_fmap_2 (fun p : string * string => (p.1, [p.2])) _ _ Hid).
  - intros Hnd Hnotin.
    rewrite <- size_dom, Hdom, size_union by set_solver.
    rewrite size_singleton, size_list_to_set by exact Hnd. reflexivity.
Qed.

Lemma replication_map_complete_witness :
  let r := copy_image_to_regions (P := Cloud "eu-central-1") "ami-0123"
             "nixos-x86_64-linux.42" "eu-central-1" three_targets false
             account_with_image in
  let m : gmap string string :=
    list_to_map [ ("eu-central-1", "ami-0123");
                  ("eu-west-1", "ami-eu-west-1-nixos-x86_64-linux.42");
                  ("us-east-1", "ami-us-east-1-nixos-x86_64-linux.42");
                  ("us-west-2", "ami-us-west-2-nixos-x86_64-linux.42") ] in
  outcome r = inr m
  /\ exists targets : list string,
       RegionName <$> three_targets = Some <$> targets
       /\ size m = size (({["eu-central-1"]} ∪ list_to_set targets) : gset string)
       /\ m !! "eu-central-1" = Some "ami-0123".
Proof.
  intros r m.
  assert (Hm : outcome r = inr m) by (vm_compute; reflexivity).
  split; [exact Hm|].
  destruct (replication_map_complete (P := Cloud "eu-central-1")
              account_with_image "ami-0123" "nixos-x86_64-linux.42"
              "eu-central-1" three_targets false m Hm)
    as (targets & Hn & _ & Hsize & Hs & _).
  exists targets. auto.
Defined.

Example replication_four_entries :
  let r := copy_image_to_regions (P := Cloud "eu-central-1") "ami-0123"
             "nixos-x86_64-linux.42" "eu-central-1" three_targets false
             account_with_image in
  match outcome r with
  | inr m => size m = 4
  | inl _ => False
  end.
Proof. vm_compute. reflexivity. Qed.

(** C8 (as amended): when a call of any target region's copy raises, the
    stage raises and returns no map; with every target named, the
    exception it raises is the one of the first failing region in the
    order of the targets, as the provider raised it: it does not name the
    region, and the failures of the later regions are not reported. *)
Theorem replication_raises_first_failure {P : Provider} (w : world P)
    (image_id image_name source_region : string)
    (target_regions : list RegionTypeDef) (public : bool)
    (region : string) (e : exn) (later : list (string * exn)) :
  let r := copy_image_to_regions image_id image_name source_region
             target_regions public w in
  failures (trace r) = (region, e) :: later ->
  (exists e', outcome r = inl e')
  /\ (Forall (fun t => is_Some (RegionName t)) target_regions ->
      outcome r = inl e).
Proof.
  intros r Hfail. subst r.
  destruct (executor_map_returns
              (_copy_image public image_id image_name source_region)
              target_regions w) as (futures & Hf & _).
  destruct (copy_image_to_regions_outcome public image_id image_name
              source_region target_regions w futures Hf) as [Ho Ht].
  rewrite Ho. rewrite Ht in Hfail. clear Ho Ht.
  destruct (executor_map_failures public image_id image_name source_region
              target_regions w futures Hf) as [Hsome Hfirst].
  split.
  - destruct (first_error futures) as [e'|].
    + exists e'. reflexivity.
    + exfalso. apply Hsome; [|reflexivity]. rewrite Hfail. discriminate.
  - intros Hall. rewrite (Hfirst Hall), Hfail. reflexivity.
Qed.

Lemma replication_raises_first_failure_witness :
  let P := Scripted (copy_refused_in "us-east-1" (ClientError "RequestLimitExceeded"))
             (Cloud "eu-central-1") in
  let r := copy_image_to_regions (P := P) "ami-0123" "nixos-x86_64-linux.42"
             "eu-central-1" three_targets false account_with_image in
  failures (trace r) = [("us-east-1", ClientError "RequestLimitExceeded")]
  /\ outcome r = inl (ClientError "RequestLimitExceeded")
  /\ copies (trace r) = [ ("eu-west-1", "ami-eu-west-1-nixos-x86_64-linux.42");
                          ("us-west-2", "ami-us-west-2-nixos-x86_64-linux.42") ].
Proof.
  intros P r.
  assert (Hf : failures (trace r)
               = [("us-east-1", ClientError "RequestLimitExceeded")])
    by (vm_compute; reflexivity).
  split; [exact Hf|]. split.
  - apply (replication_raises_first_failure (P := P) account_with_image
             "ami-0123" "nixos-x86_64-linux.42" "eu-central-1" three_targets
             false "us-east-1" (ClientError "RequestLimitExceeded") [] Hf).
    repeat constructor; eexists; reflexivity.
  - vm_compute. reflexivity.
Defined.

(** C8 (as stated, refuted): the failure reported does not tell which
    region failed, not even one of them: the stage reports the same
    failure when the copy to one region is refused as when the copy to
    another is. *)
Lemma replication_failure_names_no_region :
  ~ (exists identify : exn -> string,
       forall (P : Provider) (w : world P)
              (image_id image_name source_region : string)
              (target_regions : list RegionTypeDef) (public : bool) (e : exn),
         outcome (copy_image_to_regions image_id image_name source_region
                    target_regions public w) = inl e ->
         identify e
         ∈ (failures (trace (copy_image_to_regions image_id image_name
                               source_region target_regions public w))).*1).
Proof.
  intros [identify H].
  pose proof (H (Scripted (copy_refused_in "eu-west-1"
                             (ClientError "RequestLimitExceeded"))
                   (Cloud "eu-central-1"))
                account_with_image "ami-0123" "nixos-x86_64-linux.42"
                "eu-central-1" three_targets false
                (ClientError "RequestLimitExceeded")) as H1.
  pose proof (H (Scripted (copy_refused_in "us-east-1"
                             (ClientError "RequestLimitExceeded"))
                   (Cloud "eu-central-1"))
                account_with_image "ami-0123" "nixos-x86_64-linux.42"
                "eu-central-1" three_targets false
                (ClientError "RequestLimitExceeded")) as H2.
  assert (E1 : identify (ClientError "RequestLimitExceeded") ∈ ["eu-west-1"]).
  { apply H1. vm_compute. reflexivity. }
  assert (E2 : identify (ClientError "RequestLimitExceeded") ∈ ["us-east-1"]).
  { apply H2. vm_compute. reflexivity. }
  apply list_elem_of_singleton in E1, E2. rewrite E1 in E2. discriminate E2.
Qed.

(** ** The pipeline *)

(** Split a run of the pipeline at each stage: project the run on its
    parts, and name the outcome of the innermost test left. *)
Ltac stages :=
  repeat (project; tidy;
          match goal with
          | |- context [match ?x with _ => _ end] =>
              lazymatch x with
              | context [match _ with _ => _ end] => fail
              | _ => destruct x eqn:?
              end
          end; tidy).

Lemma get_or_default (d : gmap string string) (key default : string) :
  d !! key = None \/ d !! key = Some "" -> get_or d key default = default.
Proof. unfold get_or. intros [-> | ->]; reflexivity. Qed.

Lemma get_or_present (d : gmap string string) (key default v : string) :
  d !! key = Some v -> truthy v = true -> get_or d key default = v.
Proof. unfold get_or. intros -> ->. reflexivity. Qed.

Section Orchestrator.
Context {P : Provider}.

Lemma copy_task_imports public image_id image_name source_region target
    (w : world P) :
  imports (trace (_copy_image public image_id image_name source_region target w))
  = [].
Proof.
  unfold _copy_image, copy_image, boto3_client_ec2, launch_permission_all.
  run_to_ends; reflexivity.
Qed.

Lemma copy_image_to_regions_imports image_id image_name source_region targets
    public (w : world P) :
  imports (trace (copy_image_to_regions image_id image_name source_region
                    targets public w)) = [].
Proof.
  destruct (executor_map_returns
              (_copy_image public image_id image_name source_region) targets w)
    as (futures & Hf & _).
  rewrite (proj2 (copy_image_to_regions_outcome public image_id image_name
                    source_region targets w futures Hf)).
  clear futures Hf. revert w.
  induction targets as [|x rest IH]; intros w; [reflexivity|].
  rewrite (proj2 (executor_map_cons _ x rest w)), imports_app,
    copy_task_imports, IH.
  reflexivity.
Qed.

Variables (image_info : gmap string string) (s3_bucket : string)
  (prefix run_id : string) (public : bool).

(** The imports of a run: none before the upload stage has returned, and
    then the one of the storage key, with the format of the descriptor or
    the default. *)
Lemma upload_ami_imports (copy_to_regions : bool) (w : world P) :
  let r := upload_ami image_info s3_bucket copy_to_regions prefix run_id
             public w in
  match image_info !! "file", image_info !! "label", image_info !! "system" with
  | Some file, Some label, Some system =>
      let name := logical_image_name prefix label system run_id in
      match outcome (upload_to_s3_if_not_exists {| s3_service := "s3" |}
                       s3_bucket name file w) with
      | inr _ =>
          imports (trace r)
          = [ ({| dc_Description := name;
                  dc_Format := get_or image_info "format" "VHD";
                  dc_UserBucket := {| S3Bucket := s3_bucket; S3Key := name |} |},
               client_token name) ]
      | inl _ => imports (trace r) = []
      end
  | _, _, _ => imports (trace r) = []
  end.
Proof.
  unfold upload_ami, getitem, boto3_client_ec2, boto3_client_s3.
  cbn [default]. stages; tidy; distribute; tidy; distribute;
    rewrite ?upload_imports, ?import_snapshot_imports, ?register_imports,
      ?copy_image_to_regions_imports;
    reflexivity.
Qed.

(** A run without replication that returns went through the three
    stages and the listing of the regions, and returns the one entry of
    the session's region. *)
Lemma upload_ami_single_region (w : world P) (m : gmap string string) :
  outcome (upload_ami image_info s3_bucket false prefix run_id public w) = inr m ->
  exists file label system snapshot_id image_id described,
    image_info !! "file" = Some file
    /\ image_info !! "label" = Some label
    /\ image_info !! "system" = Some system
    /\ let name := logical_image_name prefix label system run_id in
       let ec2 := {| meta_region_name := session_region P |} in
       let up := upload_to_s3_if_not_exists {| s3_service := "s3" |} s3_bucket
                   name file w in
       let imp := import_snapshot ec2 s3_bucket name
                    (get_or image_info "format" "VHD") (final up) in
       let reg := register_image_if_not_exists ec2 name image_info snapshot_id
                    public (final imp) in
       outcome up = inr tt
       /\ outcome imp = inr snapshot_id
       /\ outcome reg = inr image_id
       /\ m = {[ session_region P := image_id ]}
       /\ trace (upload_ami image_info s3_bucket false prefix run_id public w)
          = trace up ++ trace imp ++ trace reg
            ++ [Ev (ec2_describe_regions (session_region P)) (inr described)].
Proof.
  unfold upload_ami, getitem, boto3_client_ec2, boto3_client_s3.
  cbn [default]. stages; try discriminate.
  intros [= <-].
  repeat match goal with u : unit |- _ => destruct u end.
  do 6 eexists. repeat split; try eassumption; reflexivity.
Qed.

End Orchestrator.

(** C10: for a descriptor whose [format] is missing or the empty string,
    every import the pipeline submits has the format ["VHD"], and it
    submits one as soon as the upload stage has returned. *)
Theorem format_defaults_to_vhd {P : Provider} (w : world P)
    (image_info : gmap string string) (s3_bucket : string)
    (copy_to_regions : bool) (prefix run_id : string) (public : bool) :
  image_info !! "format" = None \/ image_info !! "format" = Some "" ->
  let r := upload_ami image_info s3_bucket copy_to_regions prefix run_id
             public w in
  Forall (fun i => dc_Format i.1 = "VHD") (imports (trace r))
  /\ (forall file label system,
        image_info !! "file" = Some file ->
        image_info !! "label" = Some label ->
        image_info !! "system" = Some system ->
        outcome (upload_to_s3_if_not_exists {| s3_service := "s3" |} s3_bucket
                   (logical_image_name prefix label system run_id) file w)
        = inr tt ->
        dc_Format <$> (imports (trace r)).*1 = ["VHD"]).
Proof.
  intros Hfmt r. subst r.
  pose proof (upload_ami_imports image_info s3_bucket prefix run_id public
                copy_to_regions w) as H.
  cbv zeta in H. rewrite (get_or_default _ _ _ Hfmt) in H. split.
  - destruct (image_info !! "file"); [|rewrite H; constructor].
    destruct (image_info !! "label"); [|rewrite H; constructor].
    destruct (image_info !! "system"); [|rewrite H; constructor].
    destruct (outcome (upload_to_s3_if_not_exists _ _ _ _ _));
      rewrite H; repeat constructor.
  - intros file label system Hf Hl Hs Hup.
    rewrite Hf, Hl, Hs, Hup in H. rewrite H. reflexivity.
Qed.

Lemma format_defaults_to_vhd_witness :
  let r := upload_ami (P := Cloud "eu-central-1") blank_format_descriptor "b"
             false "" "42" false fresh_account in
  (blank_format_descriptor !! "format" = None
   \/ blank_format_descriptor !! "format" = Some "")
  /\ Forall (fun i => dc_Format i.1 = "VHD") (imports (trace r))
  /\ dc_Format <$> (imports (trace r)).*1 = ["VHD"].
Proof.
  intros r.
  assert (Hfmt : blank_format_descriptor !! "format" = None
                 \/ blank_format_descriptor !! "format" = Some "")
    by (right; vm_compute; reflexivity).
  split; [exact Hfmt|].
  destruct (format_defaults_to_vhd (P := Cloud "eu-central-1") fresh_account
              blank_format_descriptor "b" false "" "42" false Hfmt)
    as [Hall Hone].
  split; [exact Hall|].
  apply (Hone "disk.img" "nixos" "aarch64-linux"); vm_compute; reflexivity.
Defined.

(** ** The end-to-end scenario *)

Lemma nixos_descriptor_fields :
  nixos_descriptor !! "file" = Some "disk.img"
  /\ nixos_descriptor !! "label" = Some "nixos"
  /\ nixos_descriptor !! "system" = Some "x86_64-linux"
  /\ nixos_descriptor !! "boot_mode" = Some "uefi"
  /\ nixos_descriptor !! "format" = Some "VHD".
Proof. repeat split; vm_compute; reflexivity. Qed.

Example logical_image_name_nixos :
  logical_image_name "" "nixos" "x86_64-linux" "42" = "nixos-x86_64-linux.42".
Proof. reflexivity. Qed.

Example logical_image_name_no_run_id :
  logical_image_name "ci-" "nixos" "aarch64-linux" "" = "ci-nixos-aarch64-linux".
Proof. reflexivity. Qed.

Section RegistrationOnce.
Context {P : Provider}.
Variables (ec2 : EC2Client) (image_name : string)
  (image_info : gmap string string) (snapshot_id : string) (public : bool).

(** The stage sends at most one registration, under the name it looked
    up. *)
Lemma register_at_most_once (w : world P) :
  let r := register_image_if_not_exists ec2 image_name image_info snapshot_id
             public w in
  Forall (fun q => Name q.1 = image_name) (registrations (trace r))
  /\ length (registrations (trace r)) <= 1.
Proof.
  unfold register_image_if_not_exists, getitem, launch_permission_all, assert.
  run_to_ends; split; repeat constructor.
Qed.

(** On the path where the lookup finds no image, the id the stage returns
    is the id the registration returned. *)
Lemma register_new_image_returned (w : world P) (image_id : string) :
  let r := register_image_if_not_exists ec2 image_name image_info snapshot_id
             public w in
  outcome r = inr image_id ->
  lookups (trace r) = [inr {| Images := [] |}] ->
  (registrations (trace r)).*2 = [inr {| registered_ImageId := image_id |}].
Proof.
  unfold register_image_if_not_exists, getitem, launch_permission_all, assert.
  answer; [discriminate|].
  intros Ho [= Himg]. revert Ho. rewrite Himg. tidy.
  run_to_ends; intros; simplify_eq;
    match goal with x : RegisterImageResult |- _ => destruct x end;
    reflexivity.
Qed.

End RegistrationOnce.

(** C3: for the descriptor of the scenario, bucket ["b"], no prefix, run
    id ["42"], no replication and no publication, a run that returns has
    used the storage key ["nixos-x86_64-linux.42"] in every storage call
    and in its import, and returns a map with the one entry of the
    session's region; when the lookup by name found no image, the run
    registered exactly one image, under that name, for ["x86_64"] and
    ["uefi"], and the entry is the id that registration returned.  No
    registration bears another name, no copy is requested and no
    permission granted. *)
Theorem end_to_end_scenario {P : Provider} (w : world P)
    (m : gmap string string) :
  let r := upload_ami nixos_descriptor "b" false "" "42" false w in
  let name := "nixos-x86_64-linux.42" in
  outcome r = inr m ->
  logical_image_name "" "nixos" "x86_64-linux" "42" = name
  /\ Forall (fun bk => bk = ("b", name)) (object_keys (trace r))
  /\ (imports (trace r)).*1
     = [ {| dc_Description := name; dc_Format := "VHD";
            dc_UserBucket := {| S3Bucket := "b"; S3Key := name |} |} ]
  /\ Forall (fun q => Name q.1 = name) (registrations (trace r))
  /\ length (registrations (trace r)) <= 1
  /\ copy_requests (trace r) = []
  /\ grants (trace r) = []
  /\ size m = 1
  /\ exists image_id,
       m = {[ session_region P := image_id ]}
       /\ (lookups (trace r) = [inr {| Images := [] |}] ->
           exists req,
             registrations (trace r)
             = [(req, inr {| registered_ImageId := image_id |})]
             /\ Name req = name
             /\ Architecture req = "x86_64"
             /\ BootMode req = "uefi").
Proof.
  intros r name Hm. subst r name.
  destruct nixos_descriptor_fields as (Hfile & Hlabel & Hsys & Hboot & Hfmt).
  destruct (upload_ami_single_region nixos_descriptor "b" "" "42" false w m Hm)
    as (file & label & system & snapshot_id & image_id & described
        & Hf & Hl & Hs & H).
  rewrite Hfile in Hf. rewrite Hlabel in Hl. rewrite Hsys in Hs.
  injection Hf as <-. injection Hl as <-. injection Hs as <-.
  cbv zeta in H. rewrite logical_image_name_nixos in H.
  rewrite (get_or_present _ _ _ _ Hfmt eq_refl) in H.
  destruct H as (Hup & Himp & Hreg & -> & ->).
  distribute. tidy.
  rewrite import_object_keys, register_object_keys, upload_imports,
    import_snapshot_imports, register_imports, upload_registrations,
    import_registrations, upload_copy_requests, import_copy_requests,
    register_copy_requests, upload_grants, import_grants,
    register_private_grants, upload_lookups, import_lookups.
  rewrite !app_nil_r. cbn [app fmap list_fmap fst].
  split; [reflexivity|].
  split; [apply upload_object_keys|].
  split; [reflexivity|].
  pose proof (register_at_most_once
                {| meta_region_name := session_region P |}
                "nixos-x86_64-linux.42" nixos_descriptor snapshot_id false
                (final (import_snapshot
                          {| meta_region_name := session_region P |} "b"
                          "nixos-x86_64-linux.42" "VHD"
                          (final (upload_to_s3_if_not_exists
                                    {| s3_service := "s3" |} "b"
                                    "nixos-x86_64-linux.42" "disk.img" w))))) as Honce.
  cbv zeta in Honce. destruct Honce as [Hname Hlen].
  split; [exact Hname|]. split; [exact Hlen|].
  split; [reflexivity|]. split; [reflexivity|].
  split; [apply map_size_singleton|].
  exists image_id. split; [reflexivity|].
  intros Hmiss.
  pose proof (register_new_image_request _ _ _ _ _ false _ _ _ Hsys
                architecture_of_x86_64 Hboot Hmiss) as Hreq.
  pose proof (register_new_image_returned _ _ _ _ false _ image_id Hreg Hmiss)
    as Hans.
  destruct (registrations _) as [|[req ans] [|? ?]]; try discriminate.
  injection Hreq as ->. injection Hans as ->.
  eexists. split; [reflexivity|]. repeat split; reflexivity.
Qed.

Lemma end_to_end_scenario_witness :
  let r := upload_ami (P := Cloud "eu-central-1") nixos_descriptor "b" false ""
             "42" false fresh_account in
  let m : gmap string string :=
    {[ "eu-central-1" := "ami-eu-central-1-nixos-x86_64-linux.42" ]} in
  outcome r = inr m
  /\ lookups (trace r) = [inr {| Images := [] |}]
  /\ Forall (fun bk => bk = ("b", "nixos-x86_64-linux.42")) (object_keys (trace r))
  /\ size m = 1
  /\ exists image_id req,
       m = {[ "eu-central-1" := image_id ]}
       /\ registrations (trace r)
          = [(req, inr {| registered_ImageId := image_id |})]
       /\ Name req = "nixos-x86_64-linux.42".
Proof.
  intros r m.
  assert (Hm : outcome r = inr m) by (vm_compute; reflexivity).
  assert (Hmiss : lookups (trace r) = [inr {| Images := [] |}])
    by (vm_compute; reflexivity).
  split; [exact Hm|]. split; [exact Hmiss|].
  destruct (end_to_end_scenario (P := Cloud "eu-central-1") fresh_account m Hm)
    as (_ & Hkeys & _ & _ & _ & _ & _ & Hsize & image_id & Hid & Hreg).
  split; [exact Hkeys|]. split; [exact Hsize|].
  destruct (Hreg Hmiss) as (req & Hr & Hn & _).
  exists image_id, req. split; [exact Hid|]. split; [exact Hr | exact Hn].
Defined.

(** ** The pipeline with replication *)

(** A run with replication that returns: the map is seeded with the entry
    of the session's region, the targets are the regions listed other
    than the session's, and the map of the copies is merged into the
    seeded one. *)
Lemma copy_image_to_regions_source_entry {P : Provider} (w : world P)
    (image_id image_name source_region : string)
    (target_regions : list RegionTypeDef) (public : bool)
    (m : gmap string string) :
  outcome (copy_image_to_regions image_id image_name source_region
             target_regions public w) = inr m ->
  m !! source_region = Some image_id.
Proof.
  destruct (executor_map_returns
              (_copy_image public image_id image_name source_region)
              target_regions w) as (futures & Hf & _).
  rewrite (proj1 (copy_image_to_regions_outcome public image_id image_name
                    source_region target_regions w futures Hf)).
  destruct (first_error futures); [discriminate|].
  intros [= <-]. apply lookup_insert_eq.
Qed.

Lemma upload_ami_replicated {P : Provider} (w : world P)
    (image_info : gmap string string) (s3_bucket prefix run_id : string)
    (public : bool) (m : gmap string string) :
  outcome (upload_ami image_info s3_bucket true prefix run_id public w) = inr m ->
  exists label system image_id described (w' : world P) copied,
    image_info !! "label" = Some label
    /\ image_info !! "system" = Some system
    /\ outcome (copy_image_to_regions image_id
                  (logical_image_name prefix label system run_id)
                  (session_region P)
                  (filter (fun x => RegionName x ≠ Some (session_region P))
                     (Regions described))
                  public w') = inr copied
    /\ m = dict_update (<[session_region P := image_id]> ∅) copied
    /\ m !! session_region P = Some image_id.
Proof.
  unfold upload_ami, getitem, boto3_client_ec2, boto3_client_s3.
  cbn [default]. stages; try discriminate.
  intros [= <-].
  match goal with
  | H : outcome (copy_image_to_regions _ _ _ _ _ _) = inr _ |- _ =>
      pose proof (copy_image_to_regions_source_entry _ _ _ _ _ _ _ H) as Hs
  end.
  do 6 eexists. repeat split; try eassumption; try reflexivity.
  unfold dict_update. apply lookup_union_Some_l. exact Hs.
Qed.

(** The token of the import the pipeline submits is that of the logical
    image name: the file named by the descriptor, its contents, the
    bucket and the format have no part in it. *)
Lemma upload_ami_token {P : Provider} (w : world P)
    (image_info : gmap string string) (s3_bucket : string)
    (copy_to_regions : bool) (prefix run_id : string) (public : bool)
    (label system : string) :
  image_info !! "label" = Some label ->
  image_info !! "system" = Some system ->
  Forall (fun i => i.2 = client_token
                           (logical_image_name prefix label system run_id))
    (imports (trace (upload_ami image_info s3_bucket copy_to_regions prefix
                       run_id public w))).
Proof.
  intros Hl Hs.
  pose proof (upload_ami_imports image_info s3_bucket prefix run_id public
                copy_to_regions w) as H.
  cbv zeta in H. rewrite Hl, Hs in H.
  destruct (image_info !! "file"); [|rewrite H; constructor].
  destruct (outcome (upload_to_s3_if_not_exists _ _ _ _ _));
    rewrite H; repeat constructor.
Qed.

(** Against the object store, an object that is present is left as it is
    by any number of calls. *)
Lemma upload_twice_present (region : string) (c : cloud) (s3 : S3Client)
    (bucket key file data : string) :
  objects c !! (bucket, key) = Some data ->
  let first :=
    upload_to_s3_if_not_exists (P := Cloud region) s3 bucket key file c in
  let second :=
    upload_to_s3_if_not_exists (P := Cloud region) s3 bucket key file
      (final first) in
  transfers (trace first ++ trace second) = [] /\ final second = c.
Proof.
  intros Ho first second. subst second first.
  rewrite (cloud_upload_present region s3 bucket key file c data Ho).
  cbn [final trace].
  rewrite (cloud_upload_present region s3 bucket key file c data Ho).
  split; reflexivity.
Qed.


(** * Further properties of the stages *)

Ltac tidy ::=
  cbn [outcome final trace ret raise assert app fst snd length Nat.eqb
       omap list_omap fmap list_fmap
       ImageId RegionName SnapshotId SnapshotTaskDetail ImportTaskId
       ImportSnapshotTasks Images registered_ImageId copied_ImageId Regions
       meta_region_name
       transfers object_keys imports lookups registrations grants copies
       copy_requests available task_queries failures failure_of
       transfer_of object_key_of import_of lookup_of registration_of grant_of
       copy_of copy_request_of available_of task_query_of
       raised object_waits snapshot_waits import_answers image_waits
       region_listings copy_calls
       raised_of object_wait_of snapshot_wait_of import_answer_of
       image_wait_of region_listing_of copy_call_of].

(** Run a stage to each of its ends, also past the steps that call
    nothing. *)
Ltac run_out :=
  repeat (first
            [ answer
            | progress project
            | match goal with
              | |- context [match ?x with _ => _ end] =>
                  lazymatch x with
                  | context [match _ with _ => _ end] => fail
                  | _ => destruct x eqn:?
                  end
              end ];
          tidy).

(** ** Object Upload: the transfer and the wait *)

(** X1: after a probe that raised a [ClientError], an exception of the
    transfer ends the stage as it is, before any wait for the object;
    after a transfer that returned, the stage waits once for the object
    and ends as the waiter does. *)
Theorem upload_handler_propagates {P : Provider} (w : world P)
    (s3 : S3Client) (bucket key file code : string) :
  let r := upload_to_s3_if_not_exists s3 bucket key file w in
  let probed := (respond P _ (s3_head_object bucket key) w).2 in
  let sent := respond P _ (s3_upload_file file bucket key) probed in
  (respond P _ (s3_head_object bucket key) w).1 = inl (ClientError code) ->
  (forall e, sent.1 = inl e ->
     outcome r = inl e /\ object_waits (trace r) = [])
  /\ (sent.1 = inr tt ->
      outcome r = (respond P _ (s3_wait_object_exists bucket key) sent.2).1
      /\ object_waits (trace r) = [(bucket, key)]).
Proof.
  intros r probed sent Hprobe. subst r sent probed.
  unfold upload_to_s3_if_not_exists. project. rewrite Hprobe.
  cbn [is_ClientError]. tidy. split.
  - intros e He. project. rewrite He. tidy. split; reflexivity.
  - intros Hs. project. rewrite Hs. tidy. split; reflexivity.
Qed.

Lemma upload_handler_propagates_witness :
  let P := Cloud "eu-central-1" in
  let s3 := {| s3_service := "s3" |} in
  let r := upload_to_s3_if_not_exists (P := P) s3 "b" "k" "missing.img"
             fresh_account in
  (respond P _ (s3_head_object "b" "k") fresh_account).1
  = inl (ClientError "404")
  /\ outcome r = inl (OSError "missing.img")
  /\ object_waits (trace r) = [].
Proof.
  intros P s3 r.
  assert (Hp : (respond P _ (s3_head_object "b" "k") fresh_account).1
               = inl (ClientError "404")) by (vm_compute; reflexivity).
  split; [exact Hp|].
  apply (proj1 (upload_handler_propagates (P := P) fresh_account s3 "b" "k"
                  "missing.img" "404" Hp)).
  vm_compute. reflexivity.
Defined.

(** X2: whatever the provider answers, one call of the stage names no
    object but the one of its bucket and key, and transfers at most once,
    the file it was given. *)
Theorem upload_one_object_one_transfer {P : Provider} (w : world P)
    (s3 : S3Client) (bucket key file : string) :
  let r := upload_to_s3_if_not_exists s3 bucket key file w in
  Forall (fun bk => bk = (bucket, key)) (object_keys (trace r))
  /\ (transfers (trace r) = [] \/ transfers (trace r) = [(file, bucket, key)])
  /\ length (trace r) <= 3.
Proof.
  intros r. subst r. unfold upload_to_s3_if_not_exists.
  run_to_ends; (split; [repeat constructor | split; [auto | cbn; lia]]).
Qed.

(** ** Snapshot Import: one call after the other *)

(** X3: every run submits exactly one import.  When the submission
    raises, the stage raises the same exception and neither waits nor
    asks for the task.  When it returns a task, the stage waits for that
    task id and no other; a wait that raises ends the stage with its
    exception before any question about the task; a wait that returns is
    followed by one question, about that task id, whose exception if any
    ends the stage. *)
Theorem import_snapshot_step_by_step {P : Provider} (w : world P)
    (ec2 : EC2Client) (s3_bucket s3_key image_format : string) :
  let r := import_snapshot ec2 s3_bucket s3_key image_format w in
  length (import_answers (trace r)) = 1
  /\ (forall e, import_answers (trace r) = [inl e] ->
        outcome r = inl e
        /\ snapshot_waits (trace r) = [] /\ task_queries (trace r) = [])
  /\ (forall task, import_answers (trace r) = [inr task] ->
        exists waited,
          snapshot_waits (trace r) = [([ImportTaskId task], waited)]
          /\ (forall e, waited = inl e ->
                outcome r = inl e /\ task_queries (trace r) = [])
          /\ (waited = inr tt ->
              exists answer,
                task_queries (trace r) = [([ImportTaskId task], answer)]
                /\ forall e, answer = inl e -> outcome r = inl e)).
Proof.
  intros r. subst r. unfold import_snapshot.
  answer.
  { split; [reflexivity|]. split.
    - intros e' [= <-]. repeat split; reflexivity.
    - intros task [=]. }
  answer.
  { split; [reflexivity|]. split; [intros e' [=]|].
    intros task [= <-]. eexists. split; [reflexivity|]. split.
    - intros e' [= <-]. split; reflexivity.
    - intros [=]. }
  match goal with u : unit |- _ => destruct u end.
  answer.
  { split; [reflexivity|]. split; [intros e' [=]|].
    intros task [= <-]. eexists. split; [reflexivity|]. split.
    - intros e' [=].
    - intros _. eexists. split; [reflexivity|]. intros e' [= <-]. reflexivity. }
  split; [run_to_ends; reflexivity|]. split.
  - run_to_ends; intros e' [=].
  - intros task. run_to_ends; intros [= <-];
      (eexists; split; [reflexivity|]; split; [intros e' [=]|];
       intros _; eexists; split; [reflexivity|]; intros e' [=]).
Qed.

Lemma import_snapshot_step_by_step_witness :
  let P := Cloud "eu-central-1" in
  let r := import_snapshot (P := P) {| meta_region_name := "eu-central-1" |}
             "b" "absent-key" "VHD" fresh_account in
  import_answers (trace r) = [inl (ClientError "InvalidParameter")]
  /\ outcome r = inl (ClientError "InvalidParameter")
  /\ snapshot_waits (trace r) = [] /\ task_queries (trace r) = [].
Proof.
  intros P r.
  assert (H : import_answers (trace r) = [inl (ClientError "InvalidParameter")])
    by (vm_compute; reflexivity).
  split; [exact H|].
  exact (proj1 (proj2 (import_snapshot_step_by_step (P := P) fresh_account
                         {| meta_region_name := "eu-central-1" |}
                         "b" "absent-key" "VHD")) _ H).
Defined.

(** ** Image Registration: the lookup *)

Lemma result_ext {W A : Type} (a b : result W A) :
  outcome a = outcome b -> final a = final b -> trace a = trace b -> a = b.
Proof. destruct a, b. cbn. intros -> -> ->. reflexivity. Qed.

Section RegistrationLookup.
Context {P : Provider}.
Variables (ec2 : EC2Client) (image_name : string)
  (image_info : gmap string string) (snapshot_id : string) (public : bool).

(** X4: a lookup that finds more than one image of the name, or an image
    without an id, ends the stage with an [AssertionError]: the lookup is
    the only call made, so nothing is registered, waited for or
    granted. *)
Theorem register_ambiguous_lookup_aborts (w : world P)
    (found : DescribeImagesResult) :
  let lookup :=
    ec2_describe_images (meta_region_name ec2) ["self"] [("name", [image_name])] in
  let r := register_image_if_not_exists ec2 image_name image_info snapshot_id
             public w in
  (respond P _ lookup w).1 = inr found ->
  2 <= length (Images found)
  \/ (exists image, Images found = [image] /\ ImageId image = None) ->
  outcome r = inl AssertionError
  /\ trace r = [Ev lookup (inr found)].
Proof.
  intros lookup r Hl Hbad. subst r lookup.
  unfold register_image_if_not_exists. project. rewrite Hl. tidy.
  destruct Hbad as [Hlen | (image & -> & Hid)].
  - destruct (Images found) as [|a [|b rest]]; cbn in Hlen; try lia.
    project. tidy. split; reflexivity.
  - project. tidy. rewrite Hid. tidy. split; reflexivity.
Qed.

(** X5: once the lookup finds an image, the stage goes on as it would for
    any other descriptor and snapshot: neither is read on that path. *)
Theorem register_found_ignores_descriptor (w : world P)
    (found : DescribeImagesResult)
    (image_info' : gmap string string) (snapshot_id' : string) :
  (respond P _ (ec2_describe_images (meta_region_name ec2) ["self"]
                  [("name", [image_name])]) w).1 = inr found ->
  Images found <> [] ->
  register_image_if_not_exists ec2 image_name image_info snapshot_id public w
  = register_image_if_not_exists ec2 image_name image_info' snapshot_id'
      public w.
Proof.
  intros Hl Hne.
  apply result_ext; unfold register_image_if_not_exists; project;
    rewrite Hl; tidy;
    (destruct (Images found) as [|image others]; [contradiction|]);
    reflexivity.
Qed.

(** X6: when the lookup finds no image, a descriptor without [system]
    ends the stage with an [AssertionError], and one with a known system
    but without [boot_mode] with [KeyError('boot_mode')]; in both cases
    the lookup is the only call made. *)
Theorem register_incomplete_descriptor (w : world P) :
  let lookup :=
    ec2_describe_images (meta_region_name ec2) ["self"] [("name", [image_name])] in
  let r := register_image_if_not_exists ec2 image_name image_info snapshot_id
             public w in
  (respond P _ lookup w).1 = inr {| Images := [] |} ->
  (image_info !! "system" = None ->
   outcome r = inl AssertionError /\ trace r = [Ev lookup (inr {| Images := [] |})])
  /\ (forall system arch,
        image_info !! "system" = Some system ->
        architecture_of system = Some arch ->
        image_info !! "boot_mode" = None ->
        outcome r = inl (KeyError "boot_mode")
        /\ trace r = [Ev lookup (inr {| Images := [] |})]).
Proof.
  intros lookup r Hl. subst r lookup.
  unfold register_image_if_not_exists, getitem. project. rewrite Hl. tidy.
  split.
  - intros Hs. project. rewrite Hs. tidy. split; reflexivity.
  - intros system arch Hs Ha Hb. project. rewrite Hs, Ha. project.
    rewrite Hb. tidy. split; reflexivity.
Qed.

(** X7: a call that returns has waited, once, for the image it returns to
    be available, in the region of its client. *)
Theorem register_returns_after_wait (w : world P) (image_id : string) :
  let r := register_image_if_not_exists ec2 image_name image_info snapshot_id
             public w in
  outcome r = inr image_id ->
  available (trace r) = [(meta_region_name ec2, [image_id])]
  /\ image_waits (trace r) = [(meta_region_name ec2, [image_id])].
Proof.
  intros r. subst r.
  unfold register_image_if_not_exists, getitem, launch_permission_all, assert.
  run_to_ends; intros; simplify_eq; split; reflexivity.
Qed.

End RegistrationLookup.

(** ** Image Registration against the account *)

Lemma find_snoc_None {A : Type} (f : A -> bool) (l : list A) (x : A) :
  List.find f l = None ->
  List.find f (l ++ [x]) = if f x then Some x else None.
Proof.
  induction l as [|y l IH]; cbn; [reflexivity|].
  destruct (f y); [discriminate|]. exact IH.
Qed.

Lemma image_named_add (c : cloud) (region name id : string) :
  image_named c region name = None ->
  image_named (add_image c region name id) region name = Some id.
Proof.
  unfold image_named, add_image. cbn [images].
  destruct (List.find _ (images c)) eqn:Hf; [discriminate|]. intros _.
  rewrite (find_snoc_None _ _ _ Hf). cbn. rewrite !String.eqb_refl.
  reflexivity.
Qed.

Lemma image_in_add (c : cloud) (region name id : string) :
  image_in (add_image c region name id) region id = true.
Proof.
  unfold image_in, add_image. cbn [images].
  rewrite existsb_app. cbn. rewrite !String.eqb_refl.
  apply orb_true_r.
Qed.

Section CloudCalls.
Variables (session : string) (c : cloud) (region : string).

Lemma cloud_lookup (owners : list string) (name : string) :
  respond (Cloud session) _ (ec2_describe_images region owners [("name", [name])]) c
  = (inr {| Images := match image_named c region name with
                      | Some id => [ {| ImageId := Some id |} ]
                      | None => []
                      end |}, c).
Proof.
  cbn [respond Cloud cloud_respond]. unfold names_wanted.
  cbn [List.filter fst snd map concat app String.eqb Ascii.eqb Bool.eqb].
  cbn [omap list_omap]. destruct (image_named c region name); reflexivity.
Qed.

Lemma cloud_register_new (req : RegisterImageRequest) :
  image_named c region (Name req) = None ->
  respond (Cloud session) _ (ec2_register_image region req) c
  = (inr {| registered_ImageId := "ami-" +:+ region +:+ "-" +:+ Name req |},
     add_image c region (Name req) ("ami-" +:+ region +:+ "-" +:+ Name req)).
Proof. intros H. cbn [respond Cloud cloud_respond]. rewrite H. reflexivity. Qed.

Lemma cloud_wait_available (id : string) :
  image_in c region id = true ->
  respond (Cloud session) _ (ec2_wait_image_available region [id]) c
  = (inr tt, c).
Proof.
  intros H. cbn [respond Cloud cloud_respond forallb]. rewrite H. reflexivity.
Qed.

End CloudCalls.

Lemma image_in_named (c : cloud) (region name id : string) :
  image_named c region name = Some id -> image_in c region id = true.
Proof.
  unfold image_named, image_in.
  destruct (List.find _ (images c)) as [p|] eqn:Hf; [|discriminate].
  intros [= <-]. apply find_some in Hf as [Hin Hp].
  apply existsb_exists. exists p. split; [exact Hin|].
  apply andb_true_iff in Hp as [-> _]. cbn. apply String.eqb_refl.
Qed.

(** X8: against the account, without publication: when no image of the
    name exists in the region and the descriptor is complete, a first
    call registers one image; a second call with the same name, whatever
    its descriptor and snapshot, returns the same image id, registers
    nothing and leaves the account as the first call left it. *)
Theorem register_twice_same_image (session region : string) (c : cloud)
    (image_name snapshot_id snapshot_id' : string)
    (image_info image_info' : gmap string string)
    (system arch boot_mode : string) :
  let ec2 := {| meta_region_name := region |} in
  let first := register_image_if_not_exists (P := Cloud session) ec2
                 image_name image_info snapshot_id false c in
  let second := register_image_if_not_exists (P := Cloud session) ec2
                  image_name image_info' snapshot_id' false (final first) in
  image_info !! "system" = Some system ->
  architecture_of system = Some arch ->
  image_info !! "boot_mode" = Some boot_mode ->
  image_named c region image_name = None ->
  exists image_id,
    outcome first = inr image_id
    /\ length (registrations (trace first)) = 1
    /\ outcome second = inr image_id
    /\ registrations (trace second) = []
    /\ final second = final first.
Proof.
  intros ec2 first second Hs Ha Hb Hn.
  exists ("ami-" +:+ region +:+ "-" +:+ image_name).
  assert (Hfirst :
    first = {| outcome := inr ("ami-" +:+ region +:+ "-" +:+ image_name);
               final := add_image c region image_name
                          ("ami-" +:+ region +:+ "-" +:+ image_name);
               trace := trace first |}
    /\ length (registrations (trace first)) = 1).
  { subst first ec2.
    split; [apply result_ext; cbn [outcome final trace]|];
      unfold register_image_if_not_exists, getitem;
      project; rewrite cloud_lookup, Hn; tidy;
      project; rewrite Hs, Ha; project; rewrite Hb; tidy;
      project; rewrite cloud_register_new by exact Hn; tidy;
      project; rewrite cloud_wait_available by apply image_in_add; tidy;
      reflexivity. }
  destruct Hfirst as [Hfirst Hlen].
  split; [rewrite Hfirst; reflexivity|]. split; [exact Hlen|].
  subst second. rewrite Hfirst. cbn [final].
  unfold register_image_if_not_exists. subst ec2.
  repeat split;
    project; rewrite cloud_lookup, (image_named_add _ _ _ _ Hn); tidy;
    project; tidy;
    project; rewrite cloud_wait_available by apply image_in_add; tidy;
    reflexivity.
Qed.

(** ** Region Replication: requests, grants and duplicates *)

Lemma copy_calls_app (a b : list event) :
  copy_calls (a ++ b) = copy_calls a ++ copy_calls b.
Proof. apply omap_app. Qed.

Section ReplicationCalls.
Context {P : Provider}.
Variables (public : bool) (image_id image_name source_region : string).

Lemma copy_task_calls (target : RegionTypeDef) (w : world P) :
  copy_calls (trace (_copy_image public image_id image_name source_region
                       target w))
  = match RegionName target with
    | Some region => [(region, image_id, source_region, image_name, image_id)]
    | None => []
    end.
Proof.
  unfold _copy_image, copy_image, boto3_client_ec2, launch_permission_all.
  destruct (RegionName target) as [name|]; [|reflexivity].
  cbn [default]. run_to_ends; reflexivity.
Qed.

Lemma copy_task_private_grants (target : RegionTypeDef) (w : world P) :
  public = false ->
  grants (trace (_copy_image public image_id image_name source_region
                   target w)) = [].
Proof.
  intros ->.
  unfold _copy_image, copy_image, boto3_client_ec2, launch_permission_all.
  run_to_ends; reflexivity.
Qed.

Lemma copy_task_public_grants (target : RegionTypeDef) (w : world P)
    region id :
  public = true ->
  outcome (_copy_image public image_id image_name source_region target w)
  = inr (region, id) ->
  grants (trace (_copy_image public image_id image_name source_region
                   target w))
  = [(region, id, "launchPermission", ["all"])].
Proof.
  intros ->.
  unfold _copy_image, copy_image, boto3_client_ec2, launch_permission_all.
  destruct (RegionName target) as [name|]; [|discriminate].
  cbn [default]. run_to_ends; intros; simplify_eq; reflexivity.
Qed.

Lemma executor_map_calls (targets : list RegionTypeDef) (w : world P) :
  copy_calls (trace (executor_map
                       (_copy_image public image_id image_name source_region)
                       targets w))
  = (fun region => (region, image_id, source_region, image_name, image_id))
    <$> omap RegionName targets.
Proof.
  revert w. induction targets as [|x rest IH]; intros w; [reflexivity|].
  rewrite (proj2 (executor_map_cons _ x rest w)), copy_calls_app,
    copy_task_calls, IH.
  cbn [omap list_omap]. destruct (RegionName x); reflexivity.
Qed.

Lemma executor_map_private_grants (targets : list RegionTypeDef) (w : world P) :
  public = false ->
  grants (trace (executor_map
                   (_copy_image public image_id image_name source_region)
                   targets w)) = [].
Proof.
  intros Hp. revert w. induction targets as [|x rest IH]; intros w;
    [reflexivity|].
  rewrite (proj2 (executor_map_cons _ x rest w)), grants_app,
    (copy_task_private_grants _ _ Hp), IH.
  reflexivity.
Qed.

Lemma executor_map_public_grants (targets : list RegionTypeDef) (w : world P)
    futures :
  public = true ->
  outcome (executor_map (_copy_image public image_id image_name source_region)
             targets w) = inr futures ->
  first_error futures = None ->
  grants (trace (executor_map
                   (_copy_image public image_id image_name source_region)
                   targets w))
  = (fun p => (p.1, p.2, "launchPermission", ["all"])) <$> returned futures.
Proof.
  intros Hp. revert w futures. induction targets as [|x rest IH];
    intros w futures.
  - intros [= <-] _. reflexivity.
  - destruct (executor_map_cons
                (_copy_image public image_id image_name source_region)
                x rest w) as [-> ->].
    destruct (outcome (executor_map _ rest (final _))) as [|rs] eqn:Hrs;
      [discriminate|].
    intros [= <-]. cbn [first_error returned].
    destruct (outcome (_copy_image _ _ _ _ x w)) as [e|[region id]] eqn:Hx;
      [discriminate|].
    intros Hnone.
    rewrite grants_app, (copy_task_public_grants _ _ _ _ Hp Hx),
      (IH _ _ Hrs Hnone).
    reflexivity.
Qed.

(** The copy requests of the stage, in full. *)
Lemma copy_image_to_regions_calls (targets : list RegionTypeDef) (w : world P) :
  copy_calls (trace (copy_image_to_regions image_id image_name source_region
                       targets public w))
  = (fun region => (region, image_id, source_region, image_name, image_id))
    <$> omap RegionName targets.
Proof.
  destruct (executor_map_returns
              (_copy_image public image_id image_name source_region) targets w)
    as (futures & Hf & _).
  rewrite (proj2 (copy_image_to_regions_outcome public image_id image_name
                    source_region targets w futures Hf)).
  apply executor_map_calls.
Qed.



End ReplicationCalls.

(** [dict(pairs)] holds, for each key, the value of the last pair with
    that key. *)
Lemma dict_snoc (pairs : list (string * string)) (k v : string) :
  dict (pairs ++ [(k, v)]) = <[k := v]> (dict pairs).
Proof. unfold dict. rewrite fold_left_app. reflexivity. Qed.

Lemma dict_last_wins (pairs : list (string * string)) (k : string) :
  dict pairs !! k = snd <$> last (filter (fun p => p.1 = k) pairs).
Proof.
  induction pairs as [|[k' v'] pairs IH] using rev_ind.
  - reflexivity.
  - rewrite dict_snoc, filter_app, filter_cons, filter_nil. cbn [fst].
    destruct (decide (k' = k)) as [->|Hne].
    + rewrite lookup_insert_eq, last_snoc. reflexivity.
    + rewrite lookup_insert_ne by exact Hne. rewrite app_nil_r. exact IH.
Qed.

(** X11: in the map a stage returns, the entry of a region other than the
    source is the id returned by the last copy made to that region: when
    a region is listed twice, the later copy replaces the earlier. *)
Theorem replication_last_copy_wins {P : Provider} (w : world P)
    (image_id image_name source_region : string)
    (targets : list RegionTypeDef) (public : bool) (m : gmap string string)
    (region : string) :
  let r := copy_image_to_regions image_id image_name source_region targets
             public w in
  outcome r = inr m ->
  region <> source_region ->
  m !! region = snd <$> last (filter (fun p => p.1 = region) (copies (trace r))).
Proof.
  intros r Hm Hne. subst r.
  destruct (executor_map_returns
              (_copy_image public image_id image_name source_region) targets w)
    as (futures & Hf & _).
  destruct (copy_image_to_regions_outcome public image_id image_name
              source_region targets w futures Hf) as [Ho Ht].
  rewrite Ho in Hm. rewrite Ht. clear Ho Ht.
  destruct (first_error futures) eqn:Hnone; [discriminate|].
  injection Hm as <-.
  destruct (executor_map_all_returned public image_id image_name source_region
              targets w futures Hf Hnone) as (_ & -> & _).
  rewrite lookup_insert_ne by congruence. apply dict_last_wins.
Qed.

(** With no target the stage calls nothing and returns the map of the
    source region alone. *)
Lemma replication_no_target {P : Provider} (w : world P)
    (image_id image_name source_region : string) (public : bool) :
  copy_image_to_regions image_id image_name source_region [] public w
  = {| outcome := inr {[ source_region := image_id ]}; final := w;
       trace := [] |}.
Proof. reflexivity. Qed.

(** ** The pipeline: where a run stops *)

Section PipelineSteps.
Context {P : Provider}.
Variables (image_info : gmap string string) (s3_bucket : string)
  (copy_to_regions : bool) (prefix run_id : string) (public : bool).


Variables (file label system : string).
Hypothesis Hfile : image_info !! "file" = Some file.
Hypothesis Hlabel : image_info !! "label" = Some label.
Hypothesis Hsystem : image_info !! "system" = Some system.

(** Enter the run past the reading of the three fields; then pass a stage
    whose outcome is known. *)
Ltac past_fields :=
  unfold upload_ami, getitem, boto3_client_ec2, boto3_client_s3;
  cbn [default];
  project; rewrite Hfile; tidy; project; rewrite Hlabel; tidy; project;
  rewrite Hsystem; tidy.
Ltac past H := project; rewrite H; tidy.

(** X13: the stages run in order and a run stops at the first that
    raises, with its exception: after a failed upload nothing is
    imported, after a failed import nothing is looked up or registered,
    after a failed registration the regions are not listed. *)
Theorem upload_ami_stops_at_first_failure (w : world P) (e : exn) :
  let r := upload_ami image_info s3_bucket copy_to_regions prefix run_id
             public w in
  let name := logical_image_name prefix label system run_id in
  let ec2 := {| meta_region_name := session_region P |} in
  let up := upload_to_s3_if_not_exists {| s3_service := "s3" |} s3_bucket
              name file w in
  let imp := import_snapshot ec2 s3_bucket name
               (get_or image_info "format" "VHD") (final up) in
  (outcome up = inl e -> outcome r = inl e /\ trace r = trace up)
  /\ (outcome up = inr tt -> outcome imp = inl e ->
      outcome r = inl e /\ trace r = trace up ++ trace imp)
  /\ (forall snapshot_id,
        outcome up = inr tt -> outcome imp = inr snapshot_id ->
        let reg := register_image_if_not_exists ec2 name image_info
                     snapshot_id public (final imp) in
        outcome reg = inl e ->
        outcome r = inl e /\ trace r = trace up ++ trace imp ++ trace reg).
Proof.
  intros r name ec2 up imp. subst r name ec2 up imp.
  split; [|split].
  - intros Hup. split; past_fields; past Hup; reflexivity.
  - intros Hup Himp. split; past_fields; past Hup; past Himp; reflexivity.
  - intros snapshot_id Hup Himp reg Hreg. subst reg.
    split; past_fields; past Hup; past Himp; past Hreg; reflexivity.
Qed.

(** X14: once the image is registered the regions are listed, with or
    without replication; when the listing raises, the run raises its
    exception, although an image has been registered or found. *)
Theorem upload_ami_lists_regions (w : world P) (snapshot_id image_id : string) :
  let r := upload_ami image_info s3_bucket copy_to_regions prefix run_id
             public w in
  let name := logical_image_name prefix label system run_id in
  let ec2 := {| meta_region_name := session_region P |} in
  let up := upload_to_s3_if_not_exists {| s3_service := "s3" |} s3_bucket
              name file w in
  let imp := import_snapshot ec2 s3_bucket name
               (get_or image_info "format" "VHD") (final up) in
  let reg := register_image_if_not_exists ec2 name image_info snapshot_id
               public (final imp) in
  let listed := respond P _ (ec2_describe_regions (session_region P)) (final reg) in
  outcome up = inr tt -> outcome imp = inr snapshot_id ->
  outcome reg = inr image_id ->
  (forall e, listed.1 = inl e ->
     outcome r = inl e
     /\ trace r = trace up ++ trace imp ++ trace reg
                  ++ [Ev (ec2_describe_regions (session_region P)) (inl e)])
  /\ (forall regions, listed.1 = inr regions -> copy_to_regions = false ->
      outcome r = inr {[ session_region P := image_id ]}
      /\ trace r = trace up ++ trace imp ++ trace reg
                   ++ [Ev (ec2_describe_regions (session_region P))
                         (inr regions)]).
Proof.
  intros r name ec2 up imp reg listed Hup Himp Hreg.
  subst r name ec2 up imp reg listed. split.
  - intros e He.
    split; past_fields; past Hup; past Himp; past Hreg; past He; reflexivity.
  - intros regions Hr Hc.
    split; past_fields; past Hup; past Himp; past Hreg; past Hr; rewrite Hc;
      tidy; rewrite ?app_nil_r; reflexivity.
Qed.

(** The whole of a run without replication whose stages return. *)
Lemma upload_ami_single_region_run (w : world P)
    (snapshot_id image_id : string) (regions : DescribeRegionsResult) :
  let name := logical_image_name prefix label system run_id in
  let ec2 := {| meta_region_name := session_region P |} in
  let up := upload_to_s3_if_not_exists {| s3_service := "s3" |} s3_bucket
              name file w in
  let imp := import_snapshot ec2 s3_bucket name
               (get_or image_info "format" "VHD") (final up) in
  let reg := register_image_if_not_exists ec2 name image_info snapshot_id
               public (final imp) in
  let listed := respond P _ (ec2_describe_regions (session_region P)) (final reg) in
  copy_to_regions = false ->
  outcome up = inr tt -> outcome imp = inr snapshot_id ->
  outcome reg = inr image_id -> listed.1 = inr regions ->
  upload_ami image_info s3_bucket copy_to_regions prefix run_id public w
  = {| outcome := inr {[ session_region P := image_id ]};
       final := listed.2;
       trace := trace up ++ trace imp ++ trace reg
                ++ [Ev (ec2_describe_regions (session_region P))
                      (inr regions)] |}.
Proof.
  intros name ec2 up imp reg listed Hc Hup Himp Hreg Hr.
  subst name ec2 up imp reg listed.
  apply result_ext; cbn [outcome final trace];
    past_fields; past Hup; past Himp; past Hreg; past Hr; rewrite Hc;
    tidy; rewrite ?app_nil_r; reflexivity.
Qed.

End PipelineSteps.

(** ** The pipeline: targets of the replication *)

Lemma copy_requests_of_calls (tr : list event) :
  copy_requests tr = (fun q => (q.1.1.1.1, q.2)) <$> copy_calls tr.
Proof.
  induction tr as [|[X c r] tr IH]; [reflexivity|].
  destruct c; cbn [copy_requests copy_calls omap list_omap copy_request_of
                     copy_call_of fmap list_fmap fst snd] in *;
    rewrite ?IH; reflexivity.
Qed.

Lemma names_of_other_regions (session : string) (listed : list RegionTypeDef)
    (name : string) :
  name ∈ omap RegionName
           (filter (fun x => RegionName x ≠ Some session) listed)
  <-> name ∈ omap RegionName listed /\ name <> session.
Proof.
  rewrite !list_elem_of_omap. split.
  - intros (x & Hx & Hn). apply list_elem_of_filter in Hx as [Hne Hin].
    split; [exists x; auto | congruence].
  - intros [(x & Hin & Hn) Hne]. exists x. split; [|exact Hn].
    apply list_elem_of_filter. split; [congruence | exact Hin].
Qed.

Section PipelineTargets.
Context {P : Provider}.
Variables (image_info : gmap string string) (s3_bucket : string)
  (prefix run_id : string) (public : bool).

(** X15: whatever the provider answers, the pipeline requests no copy to
    the region of its own session, and no copy at all when replication is
    not asked for. *)
Theorem upload_ami_never_copies_home (copy_to_regions : bool) (w : world P) :
  let r := upload_ami image_info s3_bucket copy_to_regions prefix run_id
             public w in
  Forall (fun q => q.1 <> session_region P) (copy_requests (trace r))
  /\ (copy_to_regions = false -> copy_requests (trace r) = []).
Proof.
  intros r. subst r.
  unfold upload_ami, getitem, boto3_client_ec2, boto3_client_s3.
  cbn [default].
  stages; tidy; distribute; tidy; distribute;
    rewrite ?upload_copy_requests, ?import_copy_requests,
      ?register_copy_requests;
    cbn [app]; try (split; [constructor | reflexivity]).
  all: rewrite copy_requests_of_calls, copy_image_to_regions_calls,
         <- list_fmap_compose; tidy; rewrite ?app_nil_r.
  all: split; [|discriminate].
  all: apply Forall_fmap, Forall_forall; intros name Hin; cbn.
  all: apply names_of_other_regions in Hin as [_ Hne]; exact Hne.
Qed.

End PipelineTargets.

(** ** The pipeline: exceptions *)

Lemma raised_app (a b : list event) : raised (a ++ b) = raised a ++ raised b.
Proof. apply omap_app. Qed.

Lemma region_listings_app (a b : list event) :
  region_listings (a ++ b) = region_listings a ++ region_listings b.
Proof. apply omap_app. Qed.

Section StageExceptions.
Context {P : Provider}.

Lemma upload_raises s3 bucket key file (w : world P) e :
  outcome (upload_to_s3_if_not_exists s3 bucket key file w) = inl e ->
  e ∈ raised (trace (upload_to_s3_if_not_exists s3 bucket key file w)).
Proof.
  unfold upload_to_s3_if_not_exists.
  run_out; intros; simplify_eq; set_solver.
Qed.

Lemma upload_returned s3 bucket key file (w : world P) :
  outcome (upload_to_s3_if_not_exists s3 bucket key file w) = inr tt ->
  raised (trace (upload_to_s3_if_not_exists s3 bucket key file w)) = []
  \/ exists code,
       raised (trace (upload_to_s3_if_not_exists s3 bucket key file w))
       = [ClientError code]
       /\ transfers (trace (upload_to_s3_if_not_exists s3 bucket key file w))
          = [(file, bucket, key)].
Proof.
  unfold upload_to_s3_if_not_exists.
  run_out; intros; simplify_eq; auto;
    match goal with
    | H : is_ClientError ?e = true |- _ => destruct e; try discriminate
    end; right; eexists; split; reflexivity.
Qed.

Lemma import_raises ec2 bucket key fmt (w : world P) e :
  outcome (import_snapshot ec2 bucket key fmt w) = inl e ->
  e ∈ raised (trace (import_snapshot ec2 bucket key fmt w))
  \/ e = AssertionError.
Proof.
  unfold import_snapshot.
  run_out; intros; simplify_eq; auto; left; set_solver.
Qed.

Lemma import_returned ec2 bucket key fmt (w : world P) snapshot_id :
  outcome (import_snapshot ec2 bucket key fmt w) = inr snapshot_id ->
  raised (trace (import_snapshot ec2 bucket key fmt w)) = [].
Proof.
  unfold import_snapshot. run_out; intros; simplify_eq; reflexivity.
Qed.

Lemma register_raises ec2 name info snap public (w : world P) e :
  outcome (register_image_if_not_exists ec2 name info snap public w) = inl e ->
  e ∈ raised (trace (register_image_if_not_exists ec2 name info snap public w))
  \/ own_exception e.
Proof.
  unfold register_image_if_not_exists, getitem, launch_permission_all, assert.
  run_out; intros; simplify_eq;
    first [ right; cbn; solve [auto | eexists; reflexivity]
          | left; set_solver ].
Qed.

Lemma register_returned ec2 name info snap public (w : world P) image_id :
  outcome (register_image_if_not_exists ec2 name info snap public w)
  = inr image_id ->
  raised (trace (register_image_if_not_exists ec2 name info snap public w)) = [].
Proof.
  unfold register_image_if_not_exists, getitem, launch_permission_all, assert.
  run_out; intros; simplify_eq; reflexivity.
Qed.

Lemma copy_task_raises public image_id name source target (w : world P) e :
  outcome (_copy_image public image_id name source target w) = inl e ->
  e ∈ raised (trace (_copy_image public image_id name source target w))
  \/ e = AssertionError.
Proof.
  unfold _copy_image, copy_image, boto3_client_ec2, launch_permission_all.
  run_out; intros; simplify_eq; auto; left; set_solver.
Qed.

Lemma copy_task_returned_clean public image_id name source target
    (w : world P) p :
  outcome (_copy_image public image_id name source target w) = inr p ->
  raised (trace (_copy_image public image_id name source target w)) = []
  /\ region_listings (trace (_copy_image public image_id name source target w))
     = [].
Proof.
  unfold _copy_image, copy_image, boto3_client_ec2, launch_permission_all.
  run_out; intros; simplify_eq; split; reflexivity.
Qed.

Lemma copy_stage_raises image_id name source targets public (w : world P) e :
  outcome (copy_image_to_regions image_id name source targets public w) = inl e ->
  e ∈ raised (trace (copy_image_to_regions image_id name source targets
                       public w))
  \/ e = AssertionError.
Proof.
  destruct (executor_map_returns (_copy_image public image_id name source)
              targets w) as (futures & Hf & _).
  destruct (copy_image_to_regions_outcome public image_id name source targets
              w futures Hf) as [-> ->].
  destruct (first_error futures) as [e'|] eqn:Hfirst; [|discriminate].
  intros [= ->]. revert w futures Hf Hfirst.
  induction targets as [|x rest IH]; intros w futures.
  - intros [= <-]. discriminate.
  - destruct (executor_map_cons (_copy_image public image_id name source)
                x rest w) as [-> ->].
    destruct (outcome (executor_map _ rest (final _))) as [|rs] eqn:Hrs;
      [discriminate|].
    intros [= <-]. cbn [first_error]. rewrite raised_app.
    destruct (outcome (_copy_image _ _ _ _ x w)) as [e'|p] eqn:Hx.
    + intros [= ->]. destruct (copy_task_raises _ _ _ _ _ _ _ Hx); [|auto].
      left. apply elem_of_app. auto.
    + intros Hfirst. destruct (IH _ _ Hrs Hfirst); [|auto].
      left. apply elem_of_app. auto.
Qed.

Lemma copy_stage_returned image_id name source targets public (w : world P) m :
  outcome (copy_image_to_regions image_id name source targets public w) = inr m ->
  raised (trace (copy_image_to_regions image_id name source targets public w))
  = [].
Proof.
  destruct (executor_map_returns (_copy_image public image_id name source)
              targets w) as (futures & Hf & _).
  destruct (copy_image_to_regions_outcome public image_id name source targets
              w futures Hf) as [-> ->].
  destruct (first_error futures) eqn:Hfirst; [discriminate|].
  intros _. revert w futures Hf Hfirst.
  induction targets as [|x rest IH]; intros w futures.
  - reflexivity.
  - destruct (executor_map_cons (_copy_image public image_id name source)
                x rest w) as [-> ->].
    destruct (outcome (executor_map _ rest (final _))) as [|rs] eqn:Hrs;
      [discriminate|].
    intros [= <-]. cbn [first_error]. rewrite raised_app.
    destruct (outcome (_copy_image _ _ _ _ x w)) as [e'|p] eqn:Hx;
      [discriminate|].
    intros Hfirst.
    rewrite (proj1 (copy_task_returned_clean _ _ _ _ _ _ _ Hx)),
      (IH _ _ Hrs Hfirst).
    reflexivity.
Qed.

End StageExceptions.

Section PipelineExceptions.
Context {P : Provider}.
Variables (image_info : gmap string string) (s3_bucket : string)
  (copy_to_regions : bool) (prefix run_id : string) (public : bool).


(** X17: a run that returns has met no exception of the provider but,
    possibly, one [ClientError] of the existence probe. *)
Theorem upload_ami_returns_clean (w : world P) (m : gmap string string) :
  let r := upload_ami image_info s3_bucket copy_to_regions prefix run_id
             public w in
  outcome r = inr m ->
  raised (trace r) = [] \/ exists code, raised (trace r) = [ClientError code].
Proof.
  intros r. subst r.
  unfold upload_ami, getitem, boto3_client_ec2, boto3_client_s3.
  cbn [default].
  stages; try discriminate; intros _;
    repeat match goal with u : unit |- _ => destruct u end;
    rewrite ?raised_app; tidy; rewrite ?raised_app;
    repeat match goal with
      | H : outcome (import_snapshot _ _ _ _ _) = inr _ |- _ =>
          rewrite (import_returned _ _ _ _ _ _ H); clear H
      | H : outcome (register_image_if_not_exists _ _ _ _ _ _) = inr _ |- _ =>
          rewrite (register_returned _ _ _ _ _ _ _ H); clear H
      | H : outcome (copy_image_to_regions _ _ _ _ _ _) = inr _ |- _ =>
          rewrite (copy_stage_returned _ _ _ _ _ _ _ H); clear H
      end;
    rewrite ?app_nil_r;
    match goal with
    | H : outcome (upload_to_s3_if_not_exists _ _ _ _ _) = inr tt |- _ =>
        destruct (upload_returned _ _ _ _ _ H) as [Hr|(code & Hr & _)];
        [left; exact Hr | right; exists code; exact Hr]
    end.
Qed.

End PipelineExceptions.

(** ** The pipeline: the regions of the result *)

Lemma names_of_named (targets : list RegionTypeDef) (names : list string) :
  RegionName <$> targets = Some <$> names -> omap RegionName targets = names.
Proof.
  revert names. induction targets as [|x rest IH]; intros [|n names];
    cbn; try discriminate; [reflexivity|].
  intros [= -> H]. f_equal. apply IH. exact H.
Qed.

Section PipelineRegions.
Context {P : Provider}.

Lemma upload_region_listings s3 bucket key file (w : world P) :
  region_listings (trace (upload_to_s3_if_not_exists s3 bucket key file w)) = [].
Proof. unfold upload_to_s3_if_not_exists. run_out; reflexivity. Qed.

Lemma import_region_listings ec2 bucket key fmt (w : world P) :
  region_listings (trace (import_snapshot ec2 bucket key fmt w)) = [].
Proof. unfold import_snapshot. run_out; reflexivity. Qed.

Lemma register_region_listings ec2 name info snap public (w : world P) :
  region_listings
    (trace (register_image_if_not_exists ec2 name info snap public w)) = [].
Proof.
  unfold register_image_if_not_exists, getitem, launch_permission_all, assert.
  run_out; reflexivity.
Qed.

Lemma copy_stage_region_listings image_id name source targets public
    (w : world P) m :
  outcome (copy_image_to_regions image_id name source targets public w) = inr m ->
  region_listings
    (trace (copy_image_to_regions image_id name source targets public w)) = [].
Proof.
  destruct (executor_map_returns (_copy_image public image_id name source)
              targets w) as (futures & Hf & _).
  destruct (copy_image_to_regions_outcome public image_id name source targets
              w futures Hf) as [-> ->].
  destruct (first_error futures) eqn:Hfirst; [discriminate|].
  intros _. revert w futures Hf Hfirst.
  induction targets as [|x rest IH]; intros w futures.
  - reflexivity.
  - destruct (executor_map_cons (_copy_image public image_id name source)
                x rest w) as [-> ->].
    destruct (outcome (executor_map _ rest (final _))) as [|rs] eqn:Hrs;
      [discriminate|].
    intros [= <-]. cbn [first_error]. rewrite region_listings_app.
    destruct (outcome (_copy_image _ _ _ _ x w)) as [e'|p] eqn:Hx;
      [discriminate|].
    intros Hfirst.
    rewrite (proj2 (copy_task_returned_clean _ _ _ _ _ _ _ Hx)),
      (IH _ _ Hrs Hfirst).
    reflexivity.
Qed.

(** The regions of the map a replication returns. *)
Lemma copy_stage_regions image_id name source targets public (w : world P) m :
  outcome (copy_image_to_regions image_id name source targets public w) = inr m ->
  exists names,
    RegionName <$> targets = Some <$> names
    /\ dom m = {[source]} ∪ list_to_set names.
Proof.
  destruct (executor_map_returns (_copy_image public image_id name source)
              targets w) as (futures & Hf & _).
  rewrite (proj1 (copy_image_to_regions_outcome public image_id name source
                    targets w futures Hf)).
  destruct (first_error futures) eqn:Hnone; [discriminate|].
  intros [= <-].
  destruct (executor_map_all_returned public image_id name source targets w
              futures Hf Hnone) as (Hn & _).
  exists (returned futures).*1. split; [exact Hn|].
  rewrite dom_insert_L, dict_dom. reflexivity.
Qed.

Variables (image_info : gmap string string) (s3_bucket : string)
  (prefix run_id : string) (public : bool).

(** X18: a run with replication that returns has listed the regions
    once; every region listed has a name, and the map it returns has one
    entry for the session's region and one for each region listed, and
    no other. *)
Theorem upload_ami_covers_listed_regions (w : world P)
    (m : gmap string string) :
  let r := upload_ami image_info s3_bucket true prefix run_id public w in
  outcome r = inr m ->
  exists listed,
    region_listings (trace r) = [inr listed]
    /\ Forall (fun x => is_Some (RegionName x)) (Regions listed)
    /\ dom m = {[session_region P]}
               ∪ list_to_set (omap RegionName (Regions listed)).
Proof.
  intros r. subst r.
  unfold upload_ami, getitem, boto3_client_ec2, boto3_client_s3.
  cbn [default]. stages; try discriminate. intros [= <-].
  match goal with
  | H : outcome (copy_image_to_regions _ _ _ _ _ _) = inr ?g |- _ =>
      pose proof (copy_stage_region_listings _ _ _ _ _ _ _ H) as Hlist;
      destruct (copy_stage_regions _ _ _ _ _ _ _ H) as (names & Hnames & Hdom)
  end.
  match goal with d : DescribeRegionsResult |- _ => exists d end.
  rewrite !region_listings_app, upload_region_listings, import_region_listings,
    register_region_listings. tidy. rewrite ?app_nil_r, Hlist.
  split; [reflexivity|].
  pose proof (names_of_named _ _ Hnames) as Hn.
  split.
  - apply Forall_forall. intros x Hx.
    destruct (RegionName x) as [n|] eqn:Hrn; [eauto|]. exfalso.
    assert (Hin : x ∈ filter (fun x => RegionName x ≠ Some (session_region P))
                        (Regions d))
      by (apply list_elem_of_filter; split; [congruence | exact Hx]).
    apply (list_elem_of_fmap_2 RegionName) in Hin.
    rewrite Hnames, Hrn in Hin.
    apply list_elem_of_fmap in Hin as (? & ? & _). discriminate.
  - unfold dict_update. rewrite dom_union_L, Hdom, dom_insert_L, dom_empty_L.
    apply set_eq. intros n. rewrite <- Hn.
    rewrite !elem_of_union, !elem_of_list_to_set, names_of_other_regions,
      elem_of_singleton, elem_of_empty.
    destruct (decide (n = session_region P)); tauto.
Qed.

(** X19: a [format] of the descriptor that is not the empty string is
    the format of every import the pipeline submits. *)
Theorem upload_ami_uses_given_format (copy_to_regions : bool) (w : world P)
    (fmt : string) :
  image_info !! "format" = Some fmt -> fmt <> "" ->
  Forall (fun i => dc_Format i.1 = fmt)
    (imports (trace (upload_ami image_info s3_bucket copy_to_regions prefix
                       run_id public w))).
Proof.
  intros Hf Hne.
  pose proof (upload_ami_imports image_info s3_bucket prefix run_id public
                copy_to_regions w) as H.
  cbv zeta in H.
  rewrite (get_or_present _ _ _ _ Hf) in H by (destruct fmt; [congruence | reflexivity]).
  destruct (image_info !! "file"); [|rewrite H; constructor].
  destruct (image_info !! "label"); [|rewrite H; constructor].
  destruct (image_info !! "system"); [|rewrite H; constructor].
  destruct (outcome (upload_to_s3_if_not_exists _ _ _ _ _));
    rewrite H; repeat constructor.
Qed.

End PipelineRegions.

(** ** The logical image name *)

Lemma string_app_assoc (a b c : string) : (a +:+ b) +:+ c = a +:+ (b +:+ c).
Proof.
  induction a as [|x a IH]; [reflexivity|].
  change (String x ((a +:+ b) +:+ c) = String x (a +:+ (b +:+ c))).
  rewrite IH. reflexivity.
Qed.

(** X20: for the same prefix, label and system, two run ids give the same
    name only when they are the same run id: the empty run id, which adds
    nothing, differs from every other. *)
Theorem logical_image_name_run_id_inj (prefix label system r1 r2 : string) :
  logical_image_name prefix label system r1
  = logical_image_name prefix label system r2 ->
  r1 = r2.
Proof.
  unfold logical_image_name. intros H.
  do 4 apply String.app_inj in H.
  destruct r1, r2; cbn in H; try discriminate; [reflexivity|].
  change ("." +:+ String a r1 = "." +:+ String a0 r2) in H.
  apply String.app_inj in H. exact H.
Qed.

Lemma logical_image_name_run_id_inj_witness :
  logical_image_name "" "nixos" "x86_64-linux" "42"
  = logical_image_name "" "nixos" "x86_64-linux" "42"
  /\ "42" = "42".
Proof.
  split; [reflexivity|].
  apply (logical_image_name_run_id_inj "" "nixos" "x86_64-linux" "42" "42").
  reflexivity.
Defined.

(** X21: the name keeps no trace of where its parts end: a prefix can be
    moved into the label, and a label ["a-b"] with system ["c"] gives the
    name of the label ["a"] with system ["b-c"]; such descriptors share
    the storage key, the import token and the image name. *)
Theorem logical_image_name_collisions (prefix a b c run_id : string) :
  logical_image_name prefix a c run_id
  = logical_image_name "" (prefix +:+ a) c run_id
  /\ logical_image_name prefix (a +:+ "-" +:+ b) c run_id
     = logical_image_name prefix a (b +:+ "-" +:+ c) run_id.
Proof.
  unfold logical_image_name. split.
  - change ("" +:+ ?x) with x. rewrite !string_app_assoc. reflexivity.
  - rewrite !string_app_assoc. reflexivity.
Qed.

(** ** The shape of the client token *)
Module TokenShape.

Lemma round_length (st : list Z) (kw : Z * Z) :
  length st = 8 -> length (SHA256.round st kw) = 8.
Proof.
  intros H. unfold SHA256.round.
  do 9 (destruct st as [|? st]; try discriminate). reflexivity.
Qed.

Lemma rounds_length (kws : list (Z * Z)) (st : list Z) :
  length st = 8 -> length (fold_left SHA256.round kws st) = 8.
Proof.
  revert st. induction kws as [|kw kws IH]; intros st H; [exact H|].
  apply IH, round_length, H.
Qed.

Lemma compress_length (h block : list Z) :
  length h = 8 -> length (SHA256.compress h block) = 8.
Proof.
  intros H. unfold SHA256.compress.
  rewrite length_map, length_combine, rounds_length, H by exact H.
  reflexivity.
Qed.

Lemma blocks_length (n : nat) (bs h : list Z) :
  length h = 8 -> length (SHA256.blocks n bs h) = 8.
Proof.
  revert bs h. induction n as [|n IH]; intros bs h H; [exact H|].
  apply IH, compress_length, H.
Qed.

Lemma be_bytes_length (n : nat) (x : Z) : length (SHA256.be_bytes n x) = n.
Proof. induction n as [|n IH]; cbn; [reflexivity | rewrite IH; reflexivity]. Qed.

Lemma digest_length (msg : list Z) : length (SHA256.digest msg) = 32.
Proof.
  unfold SHA256.digest.
  pose proof (blocks_length (length (SHA256.pad msg) / 64) (SHA256.pad msg)
                SHA256.H0 eq_refl) as H.
  cbv zeta.
  set (hs := SHA256.blocks _ _ _) in *. clearbody hs.
  do 9 (destruct hs as [|? hs]; try discriminate).
  cbn [map concat]. rewrite !length_app, !be_bytes_length. reflexivity.
Qed.

Lemma hex_length (bs : list Z) :
  String.length (SHA256.hex bs) = 2 * length bs.
Proof. induction bs as [|b bs IH]; cbn; [reflexivity | rewrite IH; lia]. Qed.

Lemma hex_digit_lower (d : Z) :
  In (SHA256.hex_digit d) (list_ascii_of_string "0123456789abcdef").
Proof.
  unfold SHA256.hex_digit.
  destruct (nth_in_or_default (Z.to_nat d)
              (list_ascii_of_string "0123456789abcdef") "0"%char) as [H| ->];
    [exact H | left; reflexivity].
Qed.

Lemma hex_lower (bs : list Z) :
  Forall (fun c => In c (list_ascii_of_string "0123456789abcdef"))
    (list_ascii_of_string (SHA256.hex bs)).
Proof.
  induction bs as [|b bs IH]; [constructor|].
  cbn [SHA256.hex list_ascii_of_string].
  constructor; [apply hex_digit_lower|].
  constructor; [apply hex_digit_lower | exact IH].
Qed.

End TokenShape.

(** X22: whatever the storage key, the client token is 64 characters
    long and each of them is a digit or a letter from [a] to [f]. *)
Theorem client_token_shape (s3_key : string) :
  String.length (client_token s3_key) = 64
  /\ Forall (fun c => In c (list_ascii_of_string "0123456789abcdef"))
       (list_ascii_of_string (client_token s3_key)).
Proof.
  unfold client_token, SHA256.hexdigest. split.
  - rewrite TokenShape.hex_length, TokenShape.digest_length. reflexivity.
  - apply TokenShape.hex_lower.
Qed.

(** ** The entry point *)


(** ** A second run on the same account *)

Section CloudStages.
Variable session : string.

Lemma cloud_upload_returned (c : cloud) (s3 : S3Client)
    (bucket key file : string) :
  let r := upload_to_s3_if_not_exists (P := Cloud session) s3 bucket key file c in
  outcome r = inr tt -> is_Some (objects (final r) !! (bucket, key)).
Proof.
  intros r. subst r.
  destruct (objects c !! (bucket, key)) as [data|] eqn:Ho.
  - rewrite (cloud_upload_present session s3 bucket key file c data Ho).
    cbn [final]. rewrite Ho. eauto.
  - destruct (files c !! file) as [data|] eqn:Hf.
    + rewrite (cloud_upload_absent session s3 bucket key file c data Hf Ho).
      cbn [final objects]. rewrite lookup_insert_eq. eauto.
    + unfold upload_to_s3_if_not_exists, try_except, bind, invoke.
      cbn [respond Cloud cloud_respond]. rewrite Ho.
      cbn [outcome final trace is_ClientError]. rewrite Hf.
      cbn [outcome]. discriminate.
Qed.

Lemma cloud_import_call (c : cloud) (region : string)
    (dc : SnapshotDiskContainer) (description token data : string) :
  objects c !! (S3Bucket (dc_UserBucket dc), S3Key (dc_UserBucket dc))
  = Some data ->
  respond (Cloud session) _ (ec2_import_snapshot region dc description token) c
  = (inr {| ImportTaskId := "import-snap-" +:+ token |},
     {| files := files c; objects := objects c;
        snapshots := <["import-snap-" +:+ token := "snap-" +:+ token]>
                       (snapshots c);
        images := images c; public_images := public_images c;
        regions := regions c |}).
Proof. intros H. cbn [respond Cloud cloud_respond]. rewrite H. reflexivity. Qed.

Lemma cloud_wait_imported (c : cloud) (region id snap : string) :
  snapshots c !! id = Some snap ->
  respond (Cloud session) _ (ec2_wait_snapshot_imported region [id]) c
  = (inr tt, c).
Proof.
  intros H. cbn [respond Cloud cloud_respond forallb]. rewrite H.
  reflexivity.
Qed.

Lemma cloud_describe_task (c : cloud) (region id snap : string) :
  snapshots c !! id = Some snap ->
  respond (Cloud session) _ (ec2_describe_import_snapshot_tasks region [id]) c
  = (inr {| ImportSnapshotTasks :=
              [ {| SnapshotTaskDetail :=
                     Some {| SnapshotId := Some snap |} |} ] |}, c).
Proof.
  intros H. cbn [respond Cloud cloud_respond omap list_omap]. rewrite H.
  reflexivity.
Qed.

Lemma cloud_import_present (c : cloud) (bucket key fmt data : string) :
  objects c !! (bucket, key) = Some data ->
  let r := import_snapshot (P := Cloud session)
             {| meta_region_name := session |} bucket key fmt c in
  outcome r = inr ("snap-" +:+ client_token key)
  /\ final r
     = {| files := files c; objects := objects c;
          snapshots := <["import-snap-" +:+ client_token key
                         := "snap-" +:+ client_token key]> (snapshots c);
          images := images c; public_images := public_images c;
          regions := regions c |}.
Proof.
  intros Ho r. subst r. unfold import_snapshot.
  split;
    project; rewrite (cloud_import_call _ _ _ _ _ data) by exact Ho; tidy;
    project;
    rewrite (cloud_wait_imported _ _ _ ("snap-" +:+ client_token key))
      by apply lookup_insert_eq; tidy;
    project;
    rewrite (cloud_describe_task _ _ _ ("snap-" +:+ client_token key))
      by apply lookup_insert_eq; tidy;
    reflexivity.
Qed.

Lemma cloud_register_found (c : cloud) (name snap id : string)
    (info : gmap string string) :
  image_named c session name = Some id ->
  let r := register_image_if_not_exists (P := Cloud session)
             {| meta_region_name := session |} name info snap false c in
  outcome r = inr id /\ final r = c /\ registrations (trace r) = [].
Proof.
  intros Hn r. subst r. unfold register_image_if_not_exists.
  repeat split;
    project; rewrite cloud_lookup, Hn; tidy;
    project; tidy;
    project; rewrite cloud_wait_available by exact (image_in_named _ _ _ _ Hn);
    tidy; reflexivity.
Qed.

Lemma cloud_register_returned (c : cloud) (name snap id : string)
    (info : gmap string string) :
  let r := register_image_if_not_exists (P := Cloud session)
             {| meta_region_name := session |} name info snap false c in
  outcome r = inr id ->
  image_named (final r) session name = Some id
  /\ objects (final r) = objects c /\ snapshots (final r) = snapshots c.
Proof.
  intros r. subst r.
  destruct (image_named c session name) as [id0|] eqn:Hn.
  - destruct (cloud_register_found c name snap id0 info Hn) as (-> & -> & _).
    intros [= <-]. auto.
  - assert (Hnew :
      forall system arch boot_mode,
        info !! "system" = Some system -> architecture_of system = Some arch ->
        info !! "boot_mode" = Some boot_mode ->
        let r := register_image_if_not_exists (P := Cloud session)
                   {| meta_region_name := session |} name info snap false c in
        outcome r = inr ("ami-" +:+ session +:+ "-" +:+ name)
        /\ final r = add_image c session name
                       ("ami-" +:+ session +:+ "-" +:+ name)).
    { intros system arch boot_mode Hs Ha Hb r. subst r.
      unfold register_image_if_not_exists, getitem.
      split;
        project; rewrite cloud_lookup, Hn; tidy;
        project; rewrite Hs, Ha; project; rewrite Hb; tidy;
        project; rewrite cloud_register_new by exact Hn; tidy;
        project; rewrite cloud_wait_available by apply image_in_add; tidy;
        reflexivity. }
    destruct (info !! "system") as [system|] eqn:Hs.
    + destruct (architecture_of system) as [arch|] eqn:Ha.
      * destruct (info !! "boot_mode") as [boot_mode|] eqn:Hb.
        -- destruct (Hnew system arch boot_mode eq_refl Ha eq_refl)
             as [-> ->].
           intros [= <-].
           split; [exact (image_named_add _ _ _ _ Hn)|]. split; reflexivity.
        -- unfold register_image_if_not_exists, getitem.
           project; rewrite cloud_lookup, Hn; tidy.
           project; rewrite Hs, Ha; project; rewrite Hb; tidy.
           discriminate.
      * unfold register_image_if_not_exists, getitem.
        project; rewrite cloud_lookup, Hn; tidy.
        project; rewrite Hs, Ha; tidy. discriminate.
    + unfold register_image_if_not_exists, getitem.
      project; rewrite cloud_lookup, Hn; tidy.
      project; rewrite Hs; tidy. discriminate.
Qed.

End CloudStages.

Lemma import_transfers {P : Provider} ec2 bucket key fmt (w : world P) :
  transfers (trace (import_snapshot ec2 bucket key fmt w)) = [].
Proof. silent (@import_snapshot). Qed.

Lemma register_transfers {P : Provider} ec2 name info snap public (w : world P) :
  transfers (trace (register_image_if_not_exists ec2 name info snap public w))
  = [].
Proof. silent (@register_image_if_not_exists). Qed.

(** X24: a run without replication and publication that returned on the
    account can be repeated: the second run returns the same map,
    transfers no file, registers no image, submits the same import with
    the same client token, and leaves the account as the first run left
    it. *)
Theorem upload_ami_rerun (session : string) (c : cloud)
    (image_info : gmap string string) (s3_bucket prefix run_id : string)
    (m : gmap string string) :
  let first := upload_ami (P := Cloud session) image_info s3_bucket false
                 prefix run_id false c in
  let second := upload_ami (P := Cloud session) image_info s3_bucket false
                  prefix run_id false (final first) in
  outcome first = inr m ->
  outcome second = inr m
  /\ final second = final first
  /\ transfers (trace second) = []
  /\ registrations (trace second) = []
  /\ imports (trace second) = imports (trace first).
Proof.
  intros first second H.
  destruct (upload_ami_single_region (P := Cloud session) image_info s3_bucket
              prefix run_id false c m H)
    as (file & label & system & snap & id & described & Hf & Hl & Hs & Hst).
  cbv zeta in Hst. destruct Hst as (Hup & Himp & Hreg & -> & _).
  cbn [session_region Cloud] in *.
  set (name := logical_image_name prefix label system run_id) in *.
  set (fmt := get_or image_info "format" "VHD") in *.
  destruct (cloud_upload_returned session c {| s3_service := "s3" |} s3_bucket
              name file Hup) as [data Hobj].
  destruct (cloud_import_present session _ s3_bucket name fmt data Hobj)
    as [Hsnap Hfi].
  rewrite Himp in Hsnap. injection Hsnap as ->.
  destruct (cloud_register_returned session _ name _ id image_info Hreg)
    as (Hnamed & Hobj3 & Hsnap3).
  set (c3 := final (register_image_if_not_exists (P := Cloud session)
                      {| meta_region_name := session |} name image_info
                      ("snap-" +:+ client_token name) false _)) in *.
  assert (Hfirst : final first = c3).
  { subst first.
    rewrite (upload_ami_single_region_run (P := Cloud session) image_info
               s3_bucket false prefix run_id false file label system Hf Hl Hs
               c ("snap-" +:+ client_token name) id
               {| Regions := map (fun n => {| RegionName := Some n |})
                               (regions c3) |}
               eq_refl Hup Himp Hreg eq_refl).
    reflexivity. }
  assert (Ho3 : objects c3 !! (s3_bucket, name) = Some data).
  { rewrite Hobj3, Hfi. exact Hobj. }
  assert (Hs3 : snapshots c3 !! ("import-snap-" +:+ client_token name)
                = Some ("snap-" +:+ client_token name)).
  { rewrite Hsnap3, Hfi. cbn [snapshots]. apply lookup_insert_eq. }
  pose proof (cloud_upload_present session {| s3_service := "s3" |} s3_bucket
                name file c3 data Ho3) as Hup2.
  destruct (cloud_import_present session c3 s3_bucket name fmt data Ho3)
    as [Himp2 Hfi2].
  assert (Hsame : final (import_snapshot (P := Cloud session)
                           {| meta_region_name := session |} s3_bucket name
                           fmt c3) = c3).
  { rewrite Hfi2. rewrite (insert_id _ _ _ Hs3). destruct c3; reflexivity. }
  destruct (cloud_register_found session c3 name
              ("snap-" +:+ client_token name) id image_info Hnamed)
    as (Hreg2 & Hfr2 & Hnone).
  assert (Hsecond :
    second
    = {| outcome := inr {[ session := id ]};
         final := c3;
         trace :=
           [Ev (s3_head_object s3_bucket name) (inr tt)]
           ++ trace (import_snapshot (P := Cloud session)
                       {| meta_region_name := session |} s3_bucket name fmt c3)
           ++ trace (register_image_if_not_exists (P := Cloud session)
                       {| meta_region_name := session |} name image_info
                       ("snap-" +:+ client_token name) false c3)
           ++ [Ev (ec2_describe_regions session)
                 (inr {| Regions := map (fun n => {| RegionName := Some n |})
                                      (regions c3) |})] |}).
  { subst second. rewrite Hfirst.
    rewrite (upload_ami_single_region_run (P := Cloud session) image_info
               s3_bucket false prefix run_id false file label system Hf Hl Hs
               c3 ("snap-" +:+ client_token name) id
               {| Regions := map (fun n => {| RegionName := Some n |})
                               (regions c3) |}).
    - cbn [session_region Cloud]. fold name fmt.
      rewrite Hup2. cbn [final trace]. rewrite Hsame, Hfr2. reflexivity.
    - reflexivity.
    - cbn [session_region Cloud]. fold name. rewrite Hup2. reflexivity.
    - cbn [session_region Cloud]. fold name fmt. rewrite Hup2. cbn [final].
      exact Himp2.
    - cbn [session_region Cloud]. fold name fmt. rewrite Hup2. cbn [final].
      rewrite Hsame. exact Hreg2.
    - cbn [session_region Cloud]. fold name fmt. rewrite Hup2. cbn [final].
      rewrite Hsame, Hfr2. reflexivity. }
  split; [rewrite Hsecond; reflexivity|].
  split; [rewrite Hsecond, Hfirst; reflexivity|].
  split; [|split].
  - rewrite Hsecond. cbn [trace]. distribute.
    rewrite import_transfers, register_transfers. reflexivity.
  - rewrite Hsecond. cbn [trace]. distribute.
    rewrite import_registrations, Hnone. reflexivity.
  - pose proof (upload_ami_imports (P := Cloud session) image_info s3_bucket
                  prefix run_id false false c) as H1.
    pose proof (upload_ami_imports (P := Cloud session) image_info s3_bucket
                  prefix run_id false false (final first)) as H2.
    cbv zeta in H1, H2. rewrite Hf, Hl, Hs in H1, H2. fold name in H1, H2.
    rewrite Hup in H1. rewrite Hfirst, Hup2 in H2. cbn [outcome] in H2.
    subst second. rewrite Hfirst, H2. subst first. rewrite H1. reflexivity.
Qed.

(** ** Runs that meet the hypotheses above *)

Lemma register_ambiguous_lookup_aborts_witness :
  let two := [ {| ImageId := Some "ami-1" |}; {| ImageId := Some "ami-2" |} ] in
  let P := Scripted (lookup_answered two) (Cloud "eu-central-1") in
  let ec2 := {| meta_region_name := "eu-central-1" |} in
  let r := register_image_if_not_exists (P := P) ec2 "nixos-x86_64-linux.42"
             nixos_descriptor "snap-1" true fresh_account in
  (respond P _ (ec2_describe_images "eu-central-1" ["self"]
                  [("name", ["nixos-x86_64-linux.42"])]) fresh_account).1
  = inr {| Images := two |}
  /\ outcome r = inl AssertionError
  /\ trace r = [Ev (ec2_describe_images "eu-central-1" ["self"]
                      [("name", ["nixos-x86_64-linux.42"])])
                  (inr {| Images := two |})].
Proof.
  intros two P ec2 r.
  assert (H : (respond P _ (ec2_describe_images "eu-central-1" ["self"]
                              [("name", ["nixos-x86_64-linux.42"])])
                 fresh_account).1 = inr {| Images := two |})
    by reflexivity.
  split; [exact H|].
  apply (register_ambiguous_lookup_aborts (P := P) ec2 "nixos-x86_64-linux.42"
           nixos_descriptor "snap-1" true fresh_account {| Images := two |} H).
  left. cbn. lia.
Defined.

Lemma register_found_ignores_descriptor_witness :
  let P := Cloud "eu-central-1" in
  let ec2 := {| meta_region_name := "eu-central-1" |} in
  let found := {| Images := [ {| ImageId := Some "ami-0123" |} ] |} in
  (respond P _ (ec2_describe_images "eu-central-1" ["self"]
                  [("name", ["nixos-x86_64-linux.42"])]) account_with_image).1
  = inr found
  /\ Images found <> []
  /\ register_image_if_not_exists (P := P) ec2 "nixos-x86_64-linux.42"
       nixos_descriptor "snap-1" false account_with_image
     = register_image_if_not_exists (P := P) ec2 "nixos-x86_64-linux.42"
         riscv_descriptor "snap-2" false account_with_image.
Proof.
  intros P ec2 found.
  assert (H : (respond P _ (ec2_describe_images "eu-central-1" ["self"]
                              [("name", ["nixos-x86_64-linux.42"])])
                 account_with_image).1 = inr found)
    by (vm_compute; reflexivity).
  assert (Hne : Images found <> []) by discriminate.
  split; [exact H|]. split; [exact Hne|].
  exact (register_found_ignores_descriptor (P := P) ec2 "nixos-x86_64-linux.42"
           nixos_descriptor "snap-1" false account_with_image found
           riscv_descriptor "snap-2" H Hne).
Defined.

Lemma register_incomplete_descriptor_witness :
  let P := Cloud "eu-central-1" in
  let ec2 := {| meta_region_name := "eu-central-1" |} in
  let lookup := ec2_describe_images "eu-central-1" ["self"] [("name", ["n"])] in
  let r := register_image_if_not_exists (P := P) ec2 "n" bare_descriptor
             "snap-1" false fresh_account in
  ((respond P _ lookup fresh_account).1 = inr {| Images := [] |}
   /\ bare_descriptor !! "system" = None)
  /\ outcome r = inl AssertionError
  /\ trace r = [Ev lookup (inr {| Images := [] |})].
Proof.
  intros P ec2 lookup r.
  assert (H : (respond P _ lookup fresh_account).1 = inr {| Images := [] |})
    by (vm_compute; reflexivity).
  assert (Hs : bare_descriptor !! "system" = None) by (vm_compute; reflexivity).
  split; [auto|].
  exact (proj1 (register_incomplete_descriptor (P := P) ec2 "n" bare_descriptor
                  "snap-1" false fresh_account H) Hs).
Defined.

Lemma register_returns_after_wait_witness :
  let P := Cloud "eu-central-1" in
  let ec2 := {| meta_region_name := "eu-central-1" |} in
  let r := register_image_if_not_exists (P := P) ec2 "nixos-x86_64-linux.42"
             nixos_descriptor "snap-1" true account_with_image in
  outcome r = inr "ami-0123"
  /\ available (trace r) = [("eu-central-1", ["ami-0123"])]
  /\ image_waits (trace r) = [("eu-central-1", ["ami-0123"])].
Proof.
  intros P ec2 r.
  assert (H : outcome r = inr "ami-0123") by (vm_compute; reflexivity).
  split; [exact H|].
  exact (register_returns_after_wait (P := P) ec2 "nixos-x86_64-linux.42"
           nixos_descriptor "snap-1" true account_with_image "ami-0123" H).
Defined.

Lemma register_twice_same_image_witness :
  let ec2 := {| meta_region_name := "eu-central-1" |} in
  let first := register_image_if_not_exists (P := Cloud "eu-central-1") ec2
                 "nixos-x86_64-linux.42" nixos_descriptor "snap-1" false
                 fresh_account in
  let second := register_image_if_not_exists (P := Cloud "eu-central-1") ec2
                  "nixos-x86_64-linux.42" riscv_descriptor "snap-2" false
                  (final first) in
  (nixos_descriptor !! "system" = Some "x86_64-linux"
   /\ architecture_of "x86_64-linux" = Some "x86_64"
   /\ nixos_descriptor !! "boot_mode" = Some "uefi"
   /\ image_named fresh_account "eu-central-1" "nixos-x86_64-linux.42" = None)
  /\ exists image_id,
       outcome first = inr image_id
       /\ length (registrations (trace first)) = 1
       /\ outcome second = inr image_id
       /\ registrations (trace second) = []
       /\ final second = final first.
Proof.
  intros ec2 first second.
  destruct nixos_descriptor_fields as (_ & _ & Hs & Hb & _).
  assert (Hn : image_named fresh_account "eu-central-1" "nixos-x86_64-linux.42"
               = None) by reflexivity.
  split; [auto using architecture_of_x86_64|].
  exact (register_twice_same_image "eu-central-1" "eu-central-1" fresh_account
           "nixos-x86_64-linux.42" "snap-1" "snap-2" nixos_descriptor
           riscv_descriptor "x86_64-linux" "x86_64" "uefi"
           Hs architecture_of_x86_64 Hb Hn).
Defined.


Lemma replication_last_copy_wins_witness :
  let r := copy_image_to_regions (P := Cloud "eu-central-1") "ami-0123"
             "nixos-x86_64-linux.42" "eu-central-1"
             (three_targets ++ [named_region "eu-west-1"]) false
             account_with_image in
  let m : gmap string string :=
    list_to_map [ ("eu-central-1", "ami-0123");
                  ("eu-west-1", "ami-eu-west-1-nixos-x86_64-linux.42");
                  ("us-east-1", "ami-us-east-1-nixos-x86_64-linux.42");
                  ("us-west-2", "ami-us-west-2-nixos-x86_64-linux.42") ] in
  (outcome r = inr m /\ "eu-west-1" <> "eu-central-1")
  /\ m !! "eu-west-1"
     = snd <$> last (filter (fun p => p.1 = "eu-west-1") (copies (trace r))).
Proof.
  intros r m.
  assert (H : outcome r = inr m) by (vm_compute; reflexivity).
  assert (Hne : "eu-west-1" <> "eu-central-1") by discriminate.
  split; [auto|].
  exact (replication_last_copy_wins (P := Cloud "eu-central-1")
           account_with_image "ami-0123" "nixos-x86_64-linux.42" "eu-central-1"
           (three_targets ++ [named_region "eu-west-1"]) false m "eu-west-1"
           H Hne).
Defined.


Lemma upload_ami_stops_at_first_failure_witness :
  let P := Cloud "eu-central-1" in
  let r := upload_ami (P := P) riscv_descriptor "b" true "" "42" true
             fresh_account in
  let name := logical_image_name "" "nixos" "riscv64-linux" "42" in
  let ec2 := {| meta_region_name := "eu-central-1" |} in
  let up := upload_to_s3_if_not_exists (P := P) {| s3_service := "s3" |} "b"
              name "disk.img" fresh_account in
  let imp := import_snapshot (P := P) ec2 "b" name
               (get_or riscv_descriptor "format" "VHD") (final up) in
  let reg := register_image_if_not_exists (P := P) ec2 name riscv_descriptor
               ("snap-" +:+ client_token name) true (final imp) in
  let e := Exception "Unknown system: riscv64-linux" in
  (outcome up = inr tt /\ outcome imp = inr ("snap-" +:+ client_token name)
   /\ outcome reg = inl e)
  /\ outcome r = inl e
  /\ trace r = trace up ++ trace imp ++ trace reg.
Proof.
  intros P r name ec2 up imp reg e.
  assert (Hup : outcome up = inr tt) by (vm_compute; reflexivity).
  assert (Himp : outcome imp = inr ("snap-" +:+ client_token name))
    by (vm_compute; reflexivity).
  assert (Hreg : outcome reg = inl e) by (vm_compute; reflexivity).
  split; [auto|].
  exact (proj2 (proj2 (upload_ami_stops_at_first_failure (P := P)
                         riscv_descriptor "b" true "" "42" true "disk.img"
                         "nixos" "riscv64-linux" eq_refl eq_refl eq_refl
                         fresh_account e))
           ("snap-" +:+ client_token name) Hup Himp Hreg).
Defined.

Lemma upload_ami_lists_regions_witness :
  let refused := ClientError "UnauthorizedOperation" in
  let P := Scripted (listing_raises refused) (Cloud "eu-central-1") in
  let r := upload_ami (P := P) nixos_descriptor "b" true "" "42" true
             fresh_account in
  let name := "nixos-x86_64-linux.42" in
  let ec2 := {| meta_region_name := "eu-central-1" |} in
  let up := upload_to_s3_if_not_exists (P := P) {| s3_service := "s3" |} "b"
              name "disk.img" fresh_account in
  let imp := import_snapshot (P := P) ec2 "b" name "VHD" (final up) in
  let reg := register_image_if_not_exists (P := P) ec2 name nixos_descriptor
               ("snap-" +:+ client_token name) true (final imp) in
  (outcome up = inr tt /\ outcome imp = inr ("snap-" +:+ client_token name)
   /\ outcome reg = inr "ami-eu-central-1-nixos-x86_64-linux.42"
   /\ (respond P _ (ec2_describe_regions "eu-central-1") (final reg)).1
      = inl refused)
  /\ outcome r = inl refused
  /\ trace r = trace up ++ trace imp ++ trace reg
               ++ [Ev (ec2_describe_regions "eu-central-1") (inl refused)].
Proof.
  intros refused P r name ec2 up imp reg.
  assert (Hup : outcome up = inr tt) by (vm_compute; reflexivity).
  assert (Himp : outcome imp = inr ("snap-" +:+ client_token name))
    by (vm_compute; reflexivity).
  assert (Hreg : outcome reg = inr "ami-eu-central-1-nixos-x86_64-linux.42")
    by (vm_compute; reflexivity).
  assert (Hlist : (respond P _ (ec2_describe_regions "eu-central-1")
                     (final reg)).1 = inl refused) by reflexivity.
  split; [auto|].
  exact (proj1 (upload_ami_lists_regions (P := P) nixos_descriptor "b" true ""
                  "42" true "disk.img" "nixos" "x86_64-linux" eq_refl eq_refl
                  eq_refl fresh_account ("snap-" +:+ client_token name)
                  "ami-eu-central-1-nixos-x86_64-linux.42" Hup Himp Hreg)
           refused Hlist).
Defined.

Lemma upload_ami_never_copies_home_witness :
  copy_requests
    (trace (upload_ami (P := Cloud "eu-central-1") nixos_descriptor "b" false
              "" "42" true fresh_account)) = [].
Proof.
  exact (proj2 (upload_ami_never_copies_home (P := Cloud "eu-central-1")
                  nixos_descriptor "b" "" "42" true false fresh_account)
           eq_refl).
Defined.


Lemma upload_ami_returns_clean_witness :
  let r := upload_ami (P := Cloud "eu-central-1") nixos_descriptor "b" false ""
             "42" false fresh_account in
  let m : gmap string string :=
    {[ "eu-central-1" := "ami-eu-central-1-nixos-x86_64-linux.42" ]} in
  outcome r = inr m
  /\ (raised (trace r) = []
      \/ exists code, raised (trace r) = [ClientError code]).
Proof.
  intros r m.
  assert (H : outcome r = inr m) by (vm_compute; reflexivity).
  split; [exact H|].
  exact (upload_ami_returns_clean (P := Cloud "eu-central-1") nixos_descriptor
           "b" false "" "42" false fresh_account m H).
Defined.

Lemma upload_ami_covers_listed_regions_witness :
  let r := upload_ami (P := Cloud "eu-central-1") nixos_descriptor "b" true ""
             "42" true fresh_account in
  let m : gmap string string :=
    list_to_map [ ("eu-central-1", "ami-eu-central-1-nixos-x86_64-linux.42");
                  ("eu-west-1", "ami-eu-west-1-nixos-x86_64-linux.42");
                  ("us-east-1", "ami-us-east-1-nixos-x86_64-linux.42");
                  ("us-west-2", "ami-us-west-2-nixos-x86_64-linux.42") ] in
  outcome r = inr m
  /\ exists listed,
       region_listings (trace r) = [inr listed]
       /\ Forall (fun x => is_Some (RegionName x)) (Regions listed)
       /\ dom m = {[ "eu-central-1" ]}
                  ∪ list_to_set (omap RegionName (Regions listed)).
Proof.
  intros r m.
  assert (H : outcome r = inr m) by (vm_compute; reflexivity).
  split; [exact H|].
  exact (upload_ami_covers_listed_regions (P := Cloud "eu-central-1")
           nixos_descriptor "b" "" "42" true fresh_account m H).
Defined.

Lemma upload_ami_uses_given_format_witness :
  (raw_descriptor !! "format" = Some "raw" /\ "raw" <> "")
  /\ Forall (fun i => dc_Format i.1 = "raw")
       (imports (trace (upload_ami (P := Cloud "eu-central-1") raw_descriptor
                          "b" true "" "42" true fresh_account))).
Proof.
  assert (H : raw_descriptor !! "format" = Some "raw") by reflexivity.
  assert (Hne : "raw" <> "") by discriminate.
  split; [auto|].
  exact (upload_ami_uses_given_format (P := Cloud "eu-central-1")
           raw_descriptor "b" "" "42" true true fresh_account "raw" H Hne).
Defined.


Lemma upload_ami_rerun_witness :
  let first := upload_ami (P := Cloud "eu-central-1") nixos_descriptor "b"
                 false "" "42" false fresh_account in
  let second := upload_ami (P := Cloud "eu-central-1") nixos_descriptor "b"
                  false "" "42" false (final first) in
  let m : gmap string string :=
    {[ "eu-central-1" := "ami-eu-central-1-nixos-x86_64-linux.42" ]} in
  outcome first = inr m
  /\ outcome second = inr m
  /\ final second = final first
  /\ transfers (trace second) = []
  /\ registrations (trace second) = []
  /\ imports (trace second) = imports (trace first).
Proof.
  intros first second m.
  assert (H : outcome first = inr m) by (vm_compute; reflexivity).
  split; [exact H|].
  exact (upload_ami_rerun "eu-central-1" fresh_account nixos_descriptor "b" ""
           "42" m H).
Defined.
